(** * A shallow embedding of [device_simulator/a40.py] (Diris A40 simulator)

    The holding-register data block of the simulated A40 is modelled as a
    record of its Python attributes: the sparse word store [values]
    (pymodbus's [ModbusSparseDataBlock.values]), the per-address cache
    [_last_values], and the position in the stream of [random.randint]
    results.  Python exceptions are modelled by a state-and-exception monad
    in which writes done before the exception persist, as they do in
    Python. *)

From Stdlib Require Import ZArith Lia List.
From stdpp Require Import base gmap list.
Import ListNotations.

Open Scope Z_scope.

(** ** Python helpers *)

(** [range(start, stop, step)] for a positive [step]. *)
Definition py_range (start stop step : Z) : list Z :=
  map (fun i : nat => start + step * Z.of_nat i)
      (seq 0 (Z.to_nat ((stop - start + step - 1) / step))).

(** A Python dict built by successive assignments: later keys win. *)
Definition dict_of_list {V} (l : list (Z * V)) : gmap Z V :=
  foldl (fun m '(k, v) => <[k := v]> m) ∅ l.

(** [range(address, address + count)] *)
Definition zrange (address count : Z) : list Z :=
  map (fun i : nat => address + Z.of_nat i) (seq 0 (Z.to_nat count)).

(** ** Register configuration tables *)

Definition _HOUR_METER : Z := 0xC550.
Definition _FREQUENCY : Z := 0xC55E.
Definition _PHASE_CURRENT_1 : Z := 0xC560.
Definition _NEUTRAL_CURRENT : Z := 0xC566.

Definition TABLE_1 : list (Z * Z) := map (fun a => (a, 2)) (py_range 0xC550 (0xC58C + 1) 2).
Definition TABLE_2 : list (Z * Z) := map (fun a => (a, 2)) (py_range 0xC650 (0xC681 + 1) 2).
Definition TABLE_3 : list (Z * Z) :=
  map (fun a => (a, 2)) (py_range 0xC750 (0xC78E + 1) 2)
  ++ map (fun a => (a, 1)) (py_range 0xC790 (0xC795 + 1) 1).
Definition TABLE_4 : list (Z * Z) := map (fun a => (a, 1)) (py_range 0xC850 (0xC871 + 1) 1).
Definition TABLE_5 : list (Z * Z) := map (fun a => (a, 1)) (py_range 0xC900 (0xC907 + 1) 1).
Definition TABLE_6 : list (Z * Z) := map (fun a => (a, 1)) (py_range 0xC950 (0xCA92 + 1) 1).

Definition TABLES : list (list (Z * Z)) := [TABLE_1; TABLE_2; TABLE_3; TABLE_4; TABLE_5; TABLE_6].

Definition REGISTER_LIMITS_list : list (Z * (Z * Z)) :=
  [ (50520, (0, 50000)); (50514, (0, 50000)); (50528, (0, 20000));
    (50544, (0, 1000)); (50556, (0, 1000)); (50550, (0, 1000));
    (50562, (-1000, 1000));
    (50522, (0, 50000)); (50516, (0, 50000)); (50530, (0, 20000));
    (50546, (0, 1000)); (50558, (0, 1000)); (50552, (0, 1000));
    (50564, (-1000, 1000));
    (50524, (0, 50000)); (50518, (0, 50000)); (50532, (0, 20000));
    (50548, (0, 1000)); (50560, (0, 1000)); (50554, (0, 1000));
    (50566, (-1000, 1000));
    (50526, (3000, 7000)); (50534, (0, 20000)); (50536, (0, 1000));
    (50540, (0, 1000)); (50538, (0, 1000)); (50542, (-1000, 1000)) ].

Definition REGISTER_LIMITS : gmap Z (Z * Z) := dict_of_list REGISTER_LIMITS_list.

(** [ALL]: the union of the six tables, in the order the loop visits them. *)
Definition ALL_list : list (Z * Z) := concat TABLES.
Definition ALL : gmap Z Z := dict_of_list ALL_list.
Definition _ALL_REGISTERS : gmap Z Z := ALL.

(** The keys of [_INITIAL_REGISTER_VALUES], in iteration order.  (Under
    Python 2 the iteration order of a dict is its hash order; no claim
    below depends on the order.) *)
Definition initial_keys : list Z := map fst ALL_list.

(** [_INITIAL_REGISTER_VALUES]: 0 everywhere, then [int(sum(limits)/2)]
    (Python 2 integer division, i.e. floor) at every bounded address. *)
Definition _INITIAL_REGISTER_VALUES : gmap Z Z :=
  foldl (fun m '(addr, (lo, hi)) => <[addr := (lo + hi) / 2]> m)
        (dict_of_list (map (fun k => (k, 0)) initial_keys))
        REGISTER_LIMITS_list.

(** ** Value codec *)

(** [_REGISTER_TYPES]: the struct format of each width, as its bit size
    ('h', 'i', 'q'). *)
Definition _REGISTER_TYPES (width : Z) : option Z :=
  match width with
  | 1 => Some 16
  | 2 => Some 32
  | 4 => Some 64
  | _ => None
  end.

(** [_pack_value]: [struct.pack('>' + t, value)] raises unless the value
    fits in the format's signed range; the byte string is the two's
    complement [value mod 2^bits]; word [i] is the big-endian short in
    bytes [2i .. 2i+2].  A missing width is a [KeyError]. *)
Definition _pack_value (value width : Z) : option (list Z) :=
  match _REGISTER_TYPES width with
  | None => None
  | Some bits =>
      if (- 2 ^ (bits - 1) <=? value) && (value <? 2 ^ (bits - 1)) then
        let byte_string := value mod 2 ^ bits in
        Some (map (fun i : nat =>
                     Z.land (Z.shiftr byte_string (bits - 16 * (Z.of_nat i + 1))) 65535)
                  (seq 0 (Z.to_nat width)))
      else None
  end.

(** Modelled from the spec: [unpack], the inverse of [_pack_value] that
    §4.2 of the spec describes (the repository has no unpacking code):
    the words are read big-endian as one unsigned integer of [16 * n]
    bits, which is then read as two's complement. *)
Definition unpack (words : list Z) : Z :=
  let n := Z.of_nat (length words) in
  let u := fold_left (fun acc w => acc * 65536 + w) words 0 in
  if 2 ^ (16 * n - 1) <=? u then u - 2 ^ (16 * n) else u.

(** ** The holding-register data block *)

(** [A40HoldingRegistersDataBlock]: [values] is the sparse word store
    inherited from pymodbus, [_last_values] the random-walk cache, and
    [rng_calls] the number of [random.randint] results consumed so far. *)
Record block := mkBlock {
  values : gmap Z Z;
  _last_values : gmap Z Z;
  rng_calls : nat
}.

(** The state-and-exception monad of a method of the block: [None] is a
    raised exception; the state reached when it was raised is kept. *)
Definition M (A : Type) : Type := block -> option A * block.

Definition ret {A} (a : A) : M A := fun s => (Some a, s).
Definition bind {A B} (m : M A) (f : A -> M B) : M B :=
  fun s => match m s with
           | (Some a, s') => f a s'
           | (None, s') => (None, s')
           end.
Definition throw {A} : M A := fun s => (None, s).
Definition lift {A} (o : option A) : M A :=
  match o with Some a => ret a | None => throw end.
Definition get : M block := fun s => (Some s, s).
Definition modify (f : block -> block) : M unit := fun s => (Some tt, f s).

Notation "'let!' x := m 'in' k" := (bind m (fun x => k))
  (at level 200, x name, m at level 100, k at level 200).
Notation "m ;;! k" := (bind m (fun _ : unit => k)) (at level 100, right associativity).

(** [for x in l: f(x)] *)
Fixpoint for_each {A} (l : list A) (f : A -> M unit) : M unit :=
  match l with
  | [] => ret tt
  | x :: l' => f x ;;! for_each l' f
  end.

Definition set_values (v : gmap Z Z) (s : block) : block :=
  mkBlock v (_last_values s) (rng_calls s).
Definition set_last (l : gmap Z Z) (s : block) : block :=
  mkBlock (values s) l (rng_calls s).

(** The payload of [setValues]: a dict or a list of values. *)
Inductive values_arg :=
| VDict (d : list (Z * Z))
| VList (l : list Z).

(** pymodbus 1.2 [ModbusSparseDataBlock.setValues]: a dict is written at
    its own keys (the address is ignored), a list at
    [address, address + 1, ...]; no check of any kind. *)
Definition sparse_setValues (store : gmap Z Z) (address : Z) (vals : values_arg) : gmap Z Z :=
  match vals with
  | VDict d => foldl (fun m '(idx, val) => <[idx := val]> m) store d
  | VList l => foldl (fun m '(idx, val) => <[address + Z.of_nat idx := val]> m) store
                     (zip (seq 0 (length l)) l)
  end.

(** pymodbus 1.2 [ModbusSparseDataBlock.validate]:
    [count == 0] is refused, otherwise every address of
    [range(address, address + count)] must be a key. *)
Definition sparse_validate (store : gmap Z Z) (address count : Z) : bool :=
  if count =? 0 then false
  else forallb (fun x => bool_decide (is_Some (store !! x))) (zrange address count).

(** pymodbus 1.2 [ModbusSparseDataBlock.getValues]:
    [[self.values[i] for i in range(address, address + count)]], a
    [KeyError] on a missing key. *)
Definition sparse_getValues (store : gmap Z Z) (address count : Z) : option (list Z) :=
  mapM (fun x => store !! x) (zrange address count).

Definition setValues (address : Z) (vals : values_arg) : M unit :=
  modify (fun s => set_values (sparse_setValues (values s) address vals) s).

(** [random.randint(0, 100)], drawn from the stream [rnd]. *)
Definition randint (rnd : nat -> Z) : M Z :=
  fun s => (Some (rnd (rng_calls s)), mkBlock (values s) (_last_values s) (S (rng_calls s))).

(** [_expand_register_value] (a method, but it reads only the global
    tables): [assert addr in _ALL_REGISTERS], then the packed words keyed
    by [addr + i]. *)
Definition _expand_register_value (addr value : Z) : option (list (Z * Z)) :=
  match _ALL_REGISTERS !! addr with
  | None => None
  | Some width =>
      match _pack_value value width with
      | None => None
      | Some ws => Some (zip (zrange addr (Z.of_nat (length ws))) ws)
      end
  end.

(** [REGISTER_LIMITS.get(addr, [0, 1000])] *)
Definition limits_of (addr : Z) : Z * Z :=
  match REGISTER_LIMITS !! addr with
  | Some l => l
  | None => (0, 1000)
  end.

(** [_update_varying_register].  [int(sum(limits)/2.0)] truncates toward
    zero. *)
Definition _update_varying_register (rnd : nat -> Z) (addr : Z) : M unit :=
  let '(lo, hi) := limits_of addr in
  let! s := get in
  (match _last_values s !! addr with
   | None => modify (fun s => set_last (<[addr := Z.quot (lo + hi) 2]> (_last_values s)) s)
   | Some v =>
       let! p := randint rnd in
       if p <? 25 then
         modify (fun s => set_last (<[addr := Z.min hi (v + 25)]> (_last_values s)) s)
       else if p <? 50 then
         modify (fun s => set_last (<[addr := Z.max lo (v - 25)]> (_last_values s)) s)
       else ret tt
   end) ;;!
  let! s := get in
  let! v := lift (_last_values s !! addr) in
  let! d := lift (_expand_register_value addr v) in
  setValues addr (VDict d).

(** [_step], at [elapsed] whole seconds since [_start_time]
    ([int(elapsed_time / 36)] truncates toward zero). *)
Definition _step (rnd : nat -> Z) (elapsed : Z) : M unit :=
  let diris_time := Z.quot elapsed 36 in
  let! d := lift (_expand_register_value _HOUR_METER diris_time) in
  setValues _HOUR_METER (VDict d) ;;!
  for_each initial_keys (_update_varying_register rnd).

(** [A40HoldingRegistersDataBlock.__init__(values)] up to the start of the
    looping call: the keys of [values] must be registers; every register
    is expanded from [values.get(addr, 0)]; the cache starts empty. *)
Definition expanded_values (vals : gmap Z Z) : option (gmap Z Z) :=
  foldl (fun acc addr =>
           match acc, _expand_register_value addr (default 0 (vals !! addr)) with
           | Some m, Some d => Some (foldl (fun m '(k, v) => <[k := v]> m) m d)
           | _, _ => None
           end) (Some ∅) initial_keys.

Definition new_block (vals : gmap Z Z) : option block :=
  if bool_decide (dom vals ⊆ dom _ALL_REGISTERS) then
    match expanded_values vals with
    | Some m => Some (mkBlock m ∅ 0)
    | None => None
    end
  else None.

(** The block [create()] builds, before its looping call starts. *)
Definition seeded : block :=
  match new_block _INITIAL_REGISTER_VALUES with
  | Some b => b
  | None => mkBlock ∅ ∅ 0
  end.

(** [task.LoopingCall(self._step).start(1.0)] runs a first tick at once
    (elapsed time 0); the block [create()] returns is the one after it. *)
Definition created (rnd : nat -> Z) : block := snd (_step rnd 0 seeded).

(** The looping call: one tick per element of [elapsed]; a tick that
    raises stops the loop. *)
Fixpoint run (rnd : nat -> Z) (elapsed : list Z) (s : block) : block :=
  match elapsed with
  | [] => s
  | e :: es =>
      match _step rnd e s with
      | (Some _, s') => run rnd es s'
      | (None, s') => s'
      end
  end.

(** The logical value of register [a]: its words, read as in the spec. *)
Definition read_logical (store : gmap Z Z) (a : Z) : option Z :=
  match _ALL_REGISTERS !! a with
  | None => None
  | Some w => option_map unpack (sparse_getValues store a w)
  end.

(** ** The slave context *)

(** [l[i:j]] and [l[i:j] = vs] on a Python list, with negative indices
    counted from the end and out-of-range ones clipped. *)
Definition py_index (n i : Z) : Z := if i <? 0 then Z.max 0 (i + n) else Z.min i n.

Definition py_slice (l : list Z) (i j : Z) : list Z :=
  let n := Z.of_nat (length l) in
  let a := py_index n i in
  let b := py_index n j in
  take (Z.to_nat (b - a)) (drop (Z.to_nat a) l).

Definition py_slice_assign (l : list Z) (i j : Z) (vs : list Z) : list Z :=
  let n := Z.of_nat (length l) in
  let a := py_index n i in
  let b := Z.max a (py_index n j) in
  take (Z.to_nat a) l ++ vs ++ drop (Z.to_nat b) l.

(** The four stores of the context: pymodbus 1.2's
    [ModbusSequentialDataBlock(address, values)] for the stubs, and the
    A40 holding-register block. *)
Inductive datablock :=
| SeqBlock (address : Z) (vals : list Z)
| A40Block (b : block).

Definition block_validate (d : datablock) (address count : Z) : bool :=
  match d with
  | SeqBlock start vals =>
      (start <=? address) && (address + count <=? start + Z.of_nat (length vals))
  | A40Block b => sparse_validate (values b) address count
  end.

Definition block_getValues (d : datablock) (address count : Z) : option (list Z) :=
  match d with
  | SeqBlock start vals =>
      Some (py_slice vals (address - start) (address - start + count))
  | A40Block b => sparse_getValues (values b) address count
  end.

Definition block_setValues (d : datablock) (address : Z) (vals : list Z) : datablock :=
  match d with
  | SeqBlock start l =>
      SeqBlock start (py_slice_assign l (address - start)
                                      (address - start + Z.of_nat (length vals)) vals)
  | A40Block b => A40Block (set_values (sparse_setValues (values b) address (VList vals)) b)
  end.

Inductive family := Fd | Fc | Fi | Fh.

(** [ModbusSlaveContext.decode]: the function code's store. *)
Definition decode (fx : Z) : option family :=
  match fx with
  | 2 => Some Fd
  | 4 => Some Fi
  | 3 | 6 | 16 | 22 | 23 => Some Fh
  | 1 | 5 | 15 => Some Fc
  | _ => None
  end.

Record slave_context := mkContext {
  ctx_di : datablock;
  ctx_co : datablock;
  ctx_ir : datablock;
  ctx_hr : datablock
}.

Definition store (ctx : slave_context) (f : family) : datablock :=
  match f with
  | Fd => ctx_di ctx
  | Fc => ctx_co ctx
  | Fi => ctx_ir ctx
  | Fh => ctx_hr ctx
  end.

Definition set_store (ctx : slave_context) (f : family) (d : datablock) : slave_context :=
  match f with
  | Fd => mkContext d (ctx_co ctx) (ctx_ir ctx) (ctx_hr ctx)
  | Fc => mkContext (ctx_di ctx) d (ctx_ir ctx) (ctx_hr ctx)
  | Fi => mkContext (ctx_di ctx) (ctx_co ctx) d (ctx_hr ctx)
  | Fh => mkContext (ctx_di ctx) (ctx_co ctx) (ctx_ir ctx) d
  end.

(** [A40SlaveContext.validate]: the [address + 1] of section 4.4 is
    commented out; an unknown function code is a [KeyError]. *)
Definition A40_validate (ctx : slave_context) (fx address count : Z) : option bool :=
  match decode fx with
  | Some f => Some (block_validate (store ctx f) address count)
  | None => None
  end.

(** [A40SlaveContext.getValues] *)
Definition A40_getValues (ctx : slave_context) (fx address count : Z) : option (list Z) :=
  match decode fx with
  | Some f => block_getValues (store ctx f) address count
  | None => None
  end.

(** [A40SlaveContext.setValues] *)
Definition A40_setValues (ctx : slave_context) (fx address : Z) (vals : list Z)
  : option slave_context :=
  match decode fx with
  | Some f => Some (set_store ctx f (block_setValues (store ctx f) address vals))
  | None => None
  end.

(** [create()], with its first tick. *)
Definition create (rnd : nat -> Z) : slave_context :=
  mkContext (SeqBlock 0 [1]) (SeqBlock 0 [1]) (SeqBlock 0 [1]) (A40Block (created rnd)).

(** ** Codec lemmas *)

Module Codec.

(** The words of [_pack_value], produced high word first. *)
Fixpoint be_words (n : nat) (u : Z) : list Z :=
  match n with
  | O => []
  | S n' => Z.land (Z.shiftr u (16 * Z.of_nat n')) 65535 :: be_words n' u
  end.

Lemma be_words_length n u : length (be_words n u) = n.
Proof. induction n; simpl; auto. Qed.

Lemma map_seq_be_words (n : nat) (u : Z) :
  map (fun i : nat => Z.land (Z.shiftr u (16 * Z.of_nat n - 16 * (Z.of_nat i + 1))) 65535)
      (seq 0 n) = be_words n u.
Proof.
  induction n as [|n IH]; [reflexivity|].
  change (seq 0 (S n)) with (0%nat :: seq 1 n)%nat.
  rewrite <- seq_shift, map_cons, map_map. simpl be_words.
  f_equal.
  - do 2 f_equal. lia.
  - rewrite <- IH. apply map_ext. intros i. do 2 f_equal. lia.
Qed.

Lemma mod_mul_split (u a b : Z) :
  0 < a -> 0 < b -> u mod (a * b) = (u / a) mod b * a + u mod a.
Proof.
  intros Ha Hb.
  rewrite !Z.mod_eq by lia. rewrite <- Z.div_div by lia. ring.
Qed.

Lemma fold_be_words (n : nat) (u acc : Z) :
  fold_left (fun acc w => acc * 65536 + w) (be_words n u) acc
  = acc * 2 ^ (16 * Z.of_nat n) + u mod 2 ^ (16 * Z.of_nat n).
Proof.
  revert acc. induction n as [|n IH]; intros acc.
  - simpl. rewrite Z.mod_1_r. lia.
  - simpl be_words. simpl fold_left. rewrite IH.
    assert (E : 2 ^ (16 * Z.of_nat (S n)) = 2 ^ (16 * Z.of_nat n) * 65536).
    { rewrite Nat2Z.inj_succ, Z.mul_succ_r, Z.pow_add_r by lia. reflexivity. }
    rewrite E, mod_mul_split by (try apply Z.pow_pos_nonneg; lia).
    change 65535 with (Z.ones 16).
    rewrite Z.land_ones, Z.shiftr_div_pow2 by lia.
    change (2 ^ 16) with 65536. ring.
Qed.

Lemma register_type_cases (w bits : Z) :
  _REGISTER_TYPES w = Some bits ->
  (w = 1 /\ bits = 16) \/ (w = 2 /\ bits = 32) \/ (w = 4 /\ bits = 64).
Proof.
  unfold _REGISTER_TYPES. intros H.
  destruct w as [|p|p]; try discriminate;
    repeat (destruct p as [p|p|]; try discriminate);
    injection H as <-; auto.
Qed.

Lemma register_type_bits (w bits : Z) :
  _REGISTER_TYPES w = Some bits -> bits = 16 * Z.of_nat (Z.to_nat w) /\ 0 < w.
Proof.
  intros H. destruct (register_type_cases w bits H) as [[-> ->]|[[-> ->]|[-> ->]]];
    simpl; lia.
Qed.

Lemma pack_value_words (v w bits : Z) :
  _REGISTER_TYPES w = Some bits -> - 2 ^ (bits - 1) <= v < 2 ^ (bits - 1) ->
  _pack_value v w = Some (be_words (Z.to_nat w) (v mod 2 ^ bits)).
Proof.
  intros Hw Hv. unfold _pack_value. rewrite Hw.
  destruct (register_type_bits w bits Hw) as [Hb _].
  replace ((- 2 ^ (bits - 1) <=? v) && (v <? 2 ^ (bits - 1))) with true
    by (symmetry; apply andb_true_intro; split; [apply Z.leb_le | apply Z.ltb_lt]; lia).
  f_equal. rewrite <- map_seq_be_words. subst bits. reflexivity.
Qed.

(** Packing a representable value and unpacking the words gives it back. *)
Lemma unpack_pack_value (v w bits : Z) :
  _REGISTER_TYPES w = Some bits -> - 2 ^ (bits - 1) <= v < 2 ^ (bits - 1) ->
  exists ws, _pack_value v w = Some ws /\ length ws = Z.to_nat w /\ unpack ws = v.
Proof.
  intros Hw Hv. rewrite (pack_value_words v w bits Hw Hv).
  eexists; split; [reflexivity|]. split; [apply be_words_length|].
  destruct (register_type_bits w bits Hw) as [Hb Hpos].
  unfold unpack. rewrite be_words_length, fold_be_words, <- Hb, Z.mod_mod
    by (apply Z.pow_nonzero; lia).
  assert (Hm : 2 ^ bits = 2 * 2 ^ (bits - 1)).
  { rewrite <- Z.pow_succ_r by lia. f_equal. lia. }
  destruct (Z.leb_spec 0 v) as [Hpos'|Hneg].
  - rewrite Z.mod_small by lia.
    destruct (Z.leb_spec (2 ^ (bits - 1)) (0 * 2 ^ bits + v)); lia.
  - assert (Hmod : v mod 2 ^ bits = v + 2 ^ bits).
    { rewrite <- (Z.mod_add v 1 (2 ^ bits)) by lia.
      rewrite Z.mod_small; lia. }
    rewrite Hmod.
    destruct (Z.leb_spec (2 ^ (bits - 1)) (0 * 2 ^ bits + (v + 2 ^ bits))); lia.
Qed.

End Codec.

(** ** The catalog, checked entry by entry *)

Module Catalog.

Definition width_of (k : Z) : Z := default 0 (_ALL_REGISTERS !! k).

(** The word slots register [k] occupies. *)
Definition slots (k : Z) : list Z := zrange k (width_of k).

Definition fits (v w : Z) : bool :=
  match _REGISTER_TYPES w with
  | Some bits => (- 2 ^ (bits - 1) <=? v) && (v <? 2 ^ (bits - 1))
  | None => false
  end.

Definition initial_value (k : Z) : Z := default 0 (_INITIAL_REGISTER_VALUES !! k).

(** What the proofs need of one catalog entry: a width of 1 or 2 whose
    second word is no register of its own; a range that fits the width and
    contains its midpoint and the initial value; the seeded words; a key
    the tick visits; slots backed in the seeded store. *)
Definition check_entry (k w : Z) : bool :=
  let '(lo, hi) := limits_of k in
  let v0 := initial_value k in
  ((w =? 1) || ((w =? 2) && bool_decide (_ALL_REGISTERS !! (k + 1) = None)))
  && fits lo w && fits hi w
  && (lo <=? Z.quot (lo + hi) 2) && (Z.quot (lo + hi) 2 <=? hi)
  && (lo <=? v0) && (v0 <=? hi)
  && bool_decide (sparse_getValues (values seeded) k w = _pack_value v0 w)
  && bool_decide (k ∈ initial_keys)
  && forallb (fun x => bool_decide (is_Some (values seeded !! x))) (zrange k w).

Lemma check_all : forallb (fun '(k, w) => check_entry k w) (map_to_list _ALL_REGISTERS) = true.
Proof. vm_compute. reflexivity. Qed.

Lemma initial_keys_registers :
  forallb (fun k => bool_decide (is_Some (_ALL_REGISTERS !! k))) initial_keys = true.
Proof. vm_compute. reflexivity. Qed.

Lemma initial_keys_NoDup : NoDup initial_keys.
Proof. apply (bool_decide_eq_true_1 _). vm_compute. reflexivity. Qed.

Lemma new_block_seeded : new_block _INITIAL_REGISTER_VALUES = Some seeded.
Proof.
  assert (H : match new_block _INITIAL_REGISTER_VALUES with
              | Some _ => true | None => false end = true) by (vm_compute; reflexivity).
  unfold seeded. destruct (new_block _INITIAL_REGISTER_VALUES); [reflexivity|discriminate].
Qed.

Lemma check_entry_of (k w : Z) : _ALL_REGISTERS !! k = Some w -> check_entry k w = true.
Proof.
  intros H. pose proof check_all as C. rewrite forallb_forall in C.
  apply (C (k, w)). rewrite <- list_elem_of_In. by apply elem_of_map_to_list.
Qed.

Record entry_facts (k w : Z) : Prop := {
  ef_width : w = 1 \/ (w = 2 /\ _ALL_REGISTERS !! (k + 1) = None);
  ef_fits_lo : fits (fst (limits_of k)) w = true;
  ef_fits_hi : fits (snd (limits_of k)) w = true;
  ef_mid : fst (limits_of k) <= Z.quot (fst (limits_of k) + snd (limits_of k)) 2
           <= snd (limits_of k);
  ef_init : fst (limits_of k) <= initial_value k <= snd (limits_of k);
  ef_seed : sparse_getValues (values seeded) k w = _pack_value (initial_value k) w;
  ef_visited : k ∈ initial_keys;
  ef_backed : forall x, x ∈ zrange k w -> is_Some (values seeded !! x)
}.

Lemma entry_facts_of (k w : Z) : _ALL_REGISTERS !! k = Some w -> entry_facts k w.
Proof.
  intros H. pose proof (check_entry_of k w H) as C. unfold check_entry in C.
  destruct (limits_of k) as [lo hi] eqn:El.
  repeat rewrite andb_true_iff in C.
  destruct C as [[[[[[[[[C1 C2] C3] C4] C5] C6] C7] C8] C9] C10].
  constructor; rewrite ?El; cbn [fst snd].
  - apply orb_true_iff in C1 as [C1|C1]; [left; lia|].
    apply andb_true_iff in C1 as [C1 C1']. right. split; [lia|].
    by apply bool_decide_eq_true_1 in C1'.
  - exact C2.
  - exact C3.
  - lia.
  - lia.
  - by apply bool_decide_eq_true_1 in C8.
  - by apply bool_decide_eq_true_1 in C9.
  - intros x Hx. rewrite forallb_forall in C10.
    assert (Hin : In x (zrange k w)) by (by rewrite <- list_elem_of_In).
    specialize (C10 x Hin). by apply bool_decide_eq_true_1 in C10.
Qed.

Lemma initial_key_registered (k : Z) : k ∈ initial_keys -> exists w, _ALL_REGISTERS !! k = Some w.
Proof.
  intros H. pose proof initial_keys_registers as C. rewrite forallb_forall in C.
  apply list_elem_of_In, C in H. by apply bool_decide_eq_true_1 in H.
Qed.

Lemma elem_of_zrange (a n x : Z) : 0 <= n -> x ∈ zrange a n <-> a <= x < a + n.
Proof.
  intros Hn. unfold zrange. rewrite list_elem_of_In, in_map_iff. split.
  - intros [i [<- Hi]]. apply in_seq in Hi. lia.
  - intros Hx. exists (Z.to_nat (x - a)). split; [lia|]. apply in_seq. lia.
Qed.

Lemma width_pos (k w : Z) : _ALL_REGISTERS !! k = Some w -> 1 <= w <= 2.
Proof. intros H. destruct (ef_width _ _ (entry_facts_of k w H)) as [->|[-> _]]; lia. Qed.

(** Distinct registers occupy disjoint word slots. *)
Lemma slots_disjoint (a k wa wk x : Z) :
  _ALL_REGISTERS !! a = Some wa -> _ALL_REGISTERS !! k = Some wk -> a <> k ->
  x ∈ zrange a wa -> x ∉ zrange k wk.
Proof.
  intros Ha Hk Hne Hxa Hxk.
  pose proof (width_pos _ _ Ha). pose proof (width_pos _ _ Hk).
  apply elem_of_zrange in Hxa; [|lia]. apply elem_of_zrange in Hxk; [|lia].
  destruct (Z.lt_ge_cases a k).
  - destruct (ef_width _ _ (entry_facts_of a wa Ha)) as [->|[-> Hn]]; [lia|].
    assert (k = a + 1) as -> by lia. congruence.
  - destruct (ef_width _ _ (entry_facts_of k wk Hk)) as [->|[-> Hn]]; [lia|].
    assert (a = k + 1) as -> by lia. congruence.
Qed.

End Catalog.

(** ** Writes to the sparse store *)

Module Store.

Definition dict_write (store : gmap Z Z) (d : list (Z * Z)) : gmap Z Z :=
  foldl (fun m '(idx, val) => <[idx := val]> m) store d.

Lemma sparse_setValues_dict (store : gmap Z Z) (address : Z) (d : list (Z * Z)) :
  sparse_setValues store address (VDict d) = dict_write store d.
Proof. reflexivity. Qed.

Lemma dict_write_other (store : gmap Z Z) (d : list (Z * Z)) (x : Z) :
  x ∉ map fst d -> dict_write store d !! x = store !! x.
Proof.
  unfold dict_write. revert store.
  induction d as [|[k v] d IH]; intros store Hx; [done|].
  cbn [map fst foldl] in *. apply not_elem_of_cons in Hx as [Hne Hx].
  rewrite IH by done. by apply lookup_insert_ne.
Qed.

Lemma dict_write_is_Some (store : gmap Z Z) (d : list (Z * Z)) (x : Z) :
  is_Some (store !! x) -> is_Some (dict_write store d !! x).
Proof.
  unfold dict_write. revert store.
  induction d as [|[k v] d IH]; intros store Hx; [done|].
  cbn [foldl]. apply IH. apply lookup_insert_is_Some'. by right.
Qed.

Lemma dict_write_in (store : gmap Z Z) (d : list (Z * Z)) (x v : Z) :
  NoDup (map fst d) -> In (x, v) d -> dict_write store d !! x = Some v.
Proof.
  revert store. induction d as [|[k v0] d IH]; intros store Hnd Hin; [done|].
  cbn [map fst] in Hnd. apply NoDup_cons in Hnd as [Hk Hnd].
  destruct Hin as [Heq|Hin].
  - injection Heq as -> ->. unfold dict_write. cbn [foldl].
    fold (dict_write (<[x := v]> store) d). rewrite dict_write_other by done.
    apply lookup_insert_eq.
  - unfold dict_write. cbn [foldl]. fold (dict_write (<[k := v0]> store) d).
    by apply IH.
Qed.

Lemma map_fst_zip (l k : list Z) : length l = length k -> map fst (zip l k) = l.
Proof.
  revert k. induction l as [|x l IH]; intros [|y k] H; try discriminate; [done|].
  cbn. f_equal. apply IH. simpl in H. lia.
Qed.

Lemma Forall2_of_zip {A B} (P : A -> B -> Prop) (l : list A) (k : list B) :
  length l = length k -> (forall x y, In (x, y) (zip l k) -> P x y) -> Forall2 P l k.
Proof.
  revert k. induction l as [|x l IH]; intros [|y k] Hlen H; try discriminate.
  - constructor.
  - constructor.
    + apply H. left. reflexivity.
    + apply IH; [simpl in Hlen; lia|]. intros a b Hab. apply H. right. exact Hab.
Qed.

Lemma zrange_length (a n : Z) : length (zrange a n) = Z.to_nat n.
Proof. unfold zrange. by rewrite length_map, length_seq. Qed.

Lemma zrange_NoDup (a n : Z) : NoDup (zrange a n).
Proof.
  apply NoDup_ListNoDup. unfold zrange.
  apply NoDup_map_NoDup_ForallPairs; [|apply seq_NoDup].
  intros i j _ _ H. lia.
Qed.

(** Reading back the words just written. *)
Lemma getValues_dict_write (store : gmap Z Z) (a w : Z) (ws : list Z) :
  length ws = Z.to_nat w ->
  sparse_getValues (dict_write store (zip (zrange a w) ws)) a w = Some ws.
Proof.
  intros Hlen. unfold sparse_getValues. apply mapM_Some_2.
  apply Forall2_of_zip; [by rewrite zrange_length|].
  intros x y Hin. apply dict_write_in; [|done].
  rewrite map_fst_zip by (by rewrite zrange_length). apply zrange_NoDup.
Qed.

Lemma getValues_ext (h h' : gmap Z Z) (a n : Z) :
  (forall x, x ∈ zrange a n -> h' !! x = h !! x) ->
  sparse_getValues h' a n = sparse_getValues h a n.
Proof.
  intros H. unfold sparse_getValues. apply Forall_mapM_ext.
  apply Forall_forall. intros x Hx. apply H. exact Hx.
Qed.

Lemma pack_value_length (v w : Z) (ws : list Z) :
  _pack_value v w = Some ws -> length ws = Z.to_nat w.
Proof.
  unfold _pack_value. destruct (_REGISTER_TYPES w); [|discriminate].
  destruct (_ && _); [|discriminate]. intros [= <-]. by rewrite length_map, length_seq.
Qed.

Lemma expand_spec (addr v : Z) (d : list (Z * Z)) :
  _expand_register_value addr v = Some d ->
  exists w ws, _ALL_REGISTERS !! addr = Some w /\ _pack_value v w = Some ws /\
               length ws = Z.to_nat w /\ d = zip (zrange addr w) ws.
Proof.
  unfold _expand_register_value.
  destruct (_ALL_REGISTERS !! addr) as [w|]; [|discriminate].
  destruct (_pack_value v w) as [ws|] eqn:Ep; [|discriminate].
  intros [= <-]. pose proof (pack_value_length v w ws Ep) as Hl.
  exists w, ws. split; [done|]. split; [done|]. split; [done|].
  unfold zrange. rewrite Hl, Nat2Z.id. reflexivity.
Qed.

(** Only the words of [slots] may change, and no word disappears. *)
Definition vframe (S : list Z) (h h' : gmap Z Z) : Prop :=
  (forall x, x ∉ S -> h' !! x = h !! x) /\
  (forall x, is_Some (h !! x) -> is_Some (h' !! x)).

Lemma vframe_refl (S : list Z) (h : gmap Z Z) : vframe S h h.
Proof. split; auto. Qed.

Lemma vframe_expand (addr v : Z) (d : list (Z * Z)) (h : gmap Z Z) :
  _expand_register_value addr v = Some d ->
  vframe (Catalog.slots addr) h (dict_write h d).
Proof.
  intros He. destruct (expand_spec _ _ _ He) as (w & ws & Hw & Hp & Hl & ->).
  split.
  - intros x Hx. apply dict_write_other.
    rewrite map_fst_zip by (by rewrite zrange_length).
    unfold Catalog.slots, Catalog.width_of in Hx. by rewrite Hw in Hx.
  - intros x. apply dict_write_is_Some.
Qed.

End Store.

(** ** The tick: frames and invariants *)

Module Engine.

Ltac mstep := unfold setValues, bind, get, modify, lift, ret, throw, randint, set_last, set_values;
  cbv beta iota zeta delta [values _last_values rng_calls fst snd].
Ltac msplit := repeat (cbv beta iota zeta delta [values _last_values rng_calls fst snd];
  rewrite ?lookup_insert_eq;
  match goal with
  | |- context [match ?x with Some _ => _ | None => _ end] => destruct x eqn:?
  | |- context [if ?b then _ else _] => destruct b eqn:?
  end).

(** One call of [_update_varying_register k] touches only the words of
    [k] and the cache entry of [k], whatever its outcome. *)
Lemma update_frame (rnd : nat -> Z) (k : Z) (s : block) :
  let s' := snd (_update_varying_register rnd k s) in
  Store.vframe (Catalog.slots k) (values s) (values s') /\
  (forall x, x <> k -> _last_values s' !! x = _last_values s !! x).
Proof.
  destruct s as [h l c]. unfold _update_varying_register.
  destruct (limits_of k) as [lo hi]. mstep. msplit.
  all: split; [ first [ rewrite Store.sparse_setValues_dict; eapply Store.vframe_expand; eassumption
                      | apply Store.vframe_refl ]
              | intros x Hx; rewrite ?lookup_insert_ne by congruence; reflexivity ].
Qed.

(** Every cached value lies in the range the walk uses for its address. *)
Definition L_of (l : gmap Z Z) : Prop :=
  forall k v, l !! k = Some v -> fst (limits_of k) <= v <= snd (limits_of k).

(** Register [a] holds the packed words of a value [v] of its range, and
    [v] is the cached value of [a] if there is one. *)
Definition Pa (s : block) (a : Z) : Prop :=
  exists w v ws, _ALL_REGISTERS !! a = Some w /\
    fst (limits_of a) <= v <= snd (limits_of a) /\
    _pack_value v w = Some ws /\ sparse_getValues (values s) a w = Some ws /\
    (forall v', _last_values s !! a = Some v' -> v' = v).

Lemma L_of_insert (l : gmap Z Z) (k v : Z) :
  L_of l -> fst (limits_of k) <= v <= snd (limits_of k) -> L_of (<[k := v]> l).
Proof.
  intros HL Hv x y. destruct (decide (x = k)) as [-> | Hne].
  - rewrite lookup_insert_eq. intros [= <-]. exact Hv.
  - rewrite lookup_insert_ne by congruence. apply HL.
Qed.

Lemma fits_between (lo hi v w : Z) :
  Catalog.fits lo w = true -> Catalog.fits hi w = true -> lo <= v <= hi ->
  exists bits, _REGISTER_TYPES w = Some bits /\ - 2 ^ (bits - 1) <= v < 2 ^ (bits - 1).
Proof.
  unfold Catalog.fits. destruct (_REGISTER_TYPES w) as [bits|]; [|discriminate].
  intros Hlo Hhi Hv. exists bits. split; [done|].
  apply andb_true_iff in Hlo as [Hlo1 Hlo2]. apply andb_true_iff in Hhi as [Hhi1 Hhi2].
  apply Z.leb_le in Hlo1. apply Z.ltb_lt in Hhi2. lia.
Qed.

(** A value of the range of a register packs into its width. *)
Lemma expand_ok (k w v : Z) :
  _ALL_REGISTERS !! k = Some w ->
  fst (limits_of k) <= v <= snd (limits_of k) ->
  exists ws, _pack_value v w = Some ws /\ unpack ws = v /\
             _expand_register_value k v = Some (zip (zrange k w) ws).
Proof.
  intros Hk Hv. pose proof (Catalog.entry_facts_of k w Hk) as F.
  destruct (fits_between _ _ v w (Catalog.ef_fits_lo _ _ F) (Catalog.ef_fits_hi _ _ F) Hv)
    as (bits & Hb & Hfit).
  destruct (Codec.unpack_pack_value v w bits Hb Hfit) as (ws & Hp & Hl & Hu).
  exists ws. split; [done|]. split; [done|].
  unfold _expand_register_value. rewrite Hk, Hp. unfold zrange. rewrite Hl, Nat2Z.id.
  reflexivity.
Qed.

Lemma post_update (h l' : gmap Z Z) (c : nat) (k nv : Z) (d : list (Z * Z)) :
  l' !! k = Some nv -> fst (limits_of k) <= nv <= snd (limits_of k) ->
  _expand_register_value k nv = Some d ->
  Pa (mkBlock (Store.dict_write h d) l' c) k.
Proof.
  intros Hl Hv He.
  destruct (Store.expand_spec _ _ _ He) as (w & ws & Hw & Hp & Hlen & ->).
  exists w, nv, ws. split; [done|]. split; [done|]. split; [done|]. split.
  - by apply Store.getValues_dict_write.
  - cbn. rewrite Hl. congruence.
Qed.

(** The value [_update_varying_register] caches, and the number of
    draws it makes, as functions of the previous cache entry. *)
Definition next_last (lo hi : Z) (last : option Z) (p : Z) : Z :=
  match last with
  | None => Z.quot (lo + hi) 2
  | Some v => if p <? 25 then Z.min hi (v + 25) else if p <? 50 then Z.max lo (v - 25) else v
  end.

Definition next_calls (last : option Z) (c : nat) : nat :=
  match last with None => c | Some _ => S c end.

Lemma update_ok (rnd : nat -> Z) (k : Z) (s : block) :
  k ∈ initial_keys ->
  (forall v, _last_values s !! k = Some v -> fst (limits_of k) <= v <= snd (limits_of k)) ->
  exists s', _update_varying_register rnd k s = (Some tt, s') /\
    (L_of (_last_values s) -> L_of (_last_values s')) /\ Pa s' k /\
    _last_values s' !! k = Some (next_last (fst (limits_of k)) (snd (limits_of k))
                                           (_last_values s !! k) (rnd (rng_calls s))) /\
    rng_calls s' = next_calls (_last_values s !! k) (rng_calls s).
Proof.
  intros Hk HL. destruct (Catalog.initial_key_registered k Hk) as [w Hw].
  pose proof (Catalog.entry_facts_of k w Hw) as F.
  pose proof (Catalog.ef_mid _ _ F) as Hmid.
  destruct s as [h l c]. cbn [_last_values rng_calls values] in *.
  unfold _update_varying_register, next_last, next_calls.
  destruct (limits_of k) as [lo hi] eqn:Elim. cbn [fst snd] in *.
  mstep.
  destruct (l !! k) as [z|] eqn:El.
  - pose proof (HL z eq_refl) as Hz.
    destruct (rnd c <? 25) eqn:Hp1; [|destruct (rnd c <? 50) eqn:Hp2];
      cbv beta iota zeta delta [values _last_values rng_calls fst snd];
      rewrite ?lookup_insert_eq, ?El;
      match goal with
      | |- context [_expand_register_value k ?v] =>
          assert (Hv : fst (limits_of k) <= v <= snd (limits_of k)) by (rewrite Elim; cbn; lia);
          destruct (expand_ok k w v Hw Hv) as (ws & _ & _ & He); rewrite He
      end;
      eexists; (split; [reflexivity|]);
      (split; [intros HL'; first [apply L_of_insert; [exact HL' | exact Hv] | exact HL'] |]);
      (split; [eapply post_update; [ | exact Hv | exact He];
               rewrite ?lookup_insert_eq; first [reflexivity | exact El] |]);
      cbn; rewrite ?lookup_insert_eq, ?El; auto.
  - cbv beta iota zeta delta [values _last_values rng_calls fst snd].
    rewrite lookup_insert_eq.
    assert (Hv : fst (limits_of k) <= Z.quot (lo + hi) 2 <= snd (limits_of k))
      by (rewrite Elim; cbn; lia).
    destruct (expand_ok k w _ Hw Hv) as (ws & _ & _ & He). rewrite He.
    eexists; split; [reflexivity|].
    split; [intros HL'; apply L_of_insert; [exact HL' | exact Hv]|].
    split; [eapply post_update; [apply lookup_insert_eq | exact Hv | exact He]|].
    cbn. rewrite lookup_insert_eq. auto.
Qed.

(** [Pa a] survives an update of another register. *)
Lemma Pa_other (s s' : block) (a k : Z) :
  Pa s a -> a <> k ->
  Store.vframe (Catalog.slots k) (values s) (values s') ->
  _last_values s' !! a = _last_values s !! a -> Pa s' a.
Proof.
  intros (w & v & ws & Hw & Hv & Hp & Hg & Hl) Hne [Hf _] Hla.
  exists w, v, ws. split; [done|]. split; [done|]. split; [done|]. split.
  - rewrite <- Hg. apply Store.getValues_ext. intros x Hx. apply Hf.
    unfold Catalog.slots, Catalog.width_of.
    destruct (_ALL_REGISTERS !! k) as [wk|] eqn:Hk.
    + exact (Catalog.slots_disjoint a k w wk x Hw Hk Hne Hx).
    + apply not_elem_of_nil.
  - rewrite Hla. exact Hl.
Qed.

Lemma loop_ok (rnd : nat -> Z) (keys : list Z) (s : block) (A : Z -> Prop) :
  (forall k, k ∈ keys -> k ∈ initial_keys) -> L_of (_last_values s) ->
  (forall a, A a -> Pa s a) ->
  exists s', for_each keys (_update_varying_register rnd) s = (Some tt, s') /\
    L_of (_last_values s') /\ (forall a, A a \/ a ∈ keys -> Pa s' a).
Proof.
  revert s A. induction keys as [|k keys IH]; intros s A Hkeys HL HA.
  - exists s. split; [reflexivity|]. split; [done|].
    intros a [Ha|Ha]; [auto|]. by apply not_elem_of_nil in Ha.
  - destruct (update_ok rnd k s) as (s1 & E1 & HL1 & HP1 & _ & _);
      [apply Hkeys, elem_of_cons; auto | apply HL |]. specialize (HL1 HL).
    destruct (IH s1 (fun a => A a \/ a = k)) as (s' & E' & HL' & HP');
      [intros x Hx; apply Hkeys, elem_of_cons; auto | exact HL1 | |].
    + intros a [Ha| ->]; [|exact HP1].
      destruct (decide (a = k)) as [-> | Hne]; [exact HP1|].
      pose proof (update_frame rnd k s) as [Hf Hl]. rewrite E1 in Hf, Hl. cbn [snd] in Hf, Hl.
      eapply Pa_other; [apply HA, Ha | exact Hne | exact Hf | apply Hl, Hne].
    + exists s'. cbn [for_each]. unfold bind. rewrite E1. split; [exact E'|].
      split; [exact HL'|]. intros a Ha. apply HP'.
      destruct Ha as [Ha|Ha]; [auto|]. apply elem_of_cons in Ha as [-> | Ha]; auto.
Qed.

(** A loop leaves the cache entries of the addresses it does not visit. *)
Lemma loop_last_other (rnd : nat -> Z) (keys : list Z) (s : block) (a : Z) :
  a ∉ keys ->
  _last_values (snd (for_each keys (_update_varying_register rnd) s)) !! a
  = _last_values s !! a.
Proof.
  revert s. induction keys as [|k keys IH]; intros s Ha; [reflexivity|].
  apply not_elem_of_cons in Ha as [Hne Ha].
  cbn [for_each]. unfold bind.
  pose proof (update_frame rnd k s) as [_ Hl].
  destruct (_update_varying_register rnd k s) as [[[]|] s1]; cbn [snd] in *.
  - rewrite IH by done. apply Hl, Hne.
  - apply Hl, Hne.
Qed.

(** On the first visit of each address, the loop caches the midpoint. *)
Lemma loop_first (rnd : nat -> Z) (keys : list Z) (s : block) :
  NoDup keys -> (forall k, k ∈ keys -> k ∈ initial_keys) -> L_of (_last_values s) ->
  (forall k, k ∈ keys -> _last_values s !! k = None) ->
  forall a, a ∈ keys ->
  _last_values (snd (for_each keys (_update_varying_register rnd) s)) !! a
  = Some (Z.quot (fst (limits_of a) + snd (limits_of a)) 2).
Proof.
  revert s. induction keys as [|k keys IH]; intros s Hnd Hkeys HL Hnone a Ha.
  - by apply not_elem_of_nil in Ha.
  - apply NoDup_cons in Hnd as [Hk Hnd].
    destruct (update_ok rnd k s) as (s1 & E1 & HL1 & _ & Hlast & _);
      [apply Hkeys, elem_of_cons; auto | apply HL |]. specialize (HL1 HL).
    pose proof (update_frame rnd k s) as [_ Hl]. rewrite E1 in Hl. cbn [snd] in Hl.
    cbn [for_each]. unfold bind. rewrite E1.
    apply elem_of_cons in Ha as [-> | Ha].
    + rewrite loop_last_other by done. rewrite Hlast, Hnone by (apply elem_of_cons; auto).
      reflexivity.
    + apply IH; auto.
      * intros x Hx. apply Hkeys, elem_of_cons. auto.
      * intros x Hx. rewrite Hl by (intros ->; contradiction).
        apply Hnone, elem_of_cons. auto.
Qed.

(** The tick, in every outcome, keeps the invariants and re-establishes
    [Pa] at every register. *)
Lemma step_inv (rnd : nat -> Z) (e : Z) (s : block) :
  L_of (_last_values s) -> (forall a, is_Some (_ALL_REGISTERS !! a) -> Pa s a) ->
  let s' := snd (_step rnd e s) in
  L_of (_last_values s') /\ (forall a, is_Some (_ALL_REGISTERS !! a) -> Pa s' a).
Proof.
  intros HL HP.
  destruct (_expand_register_value _HOUR_METER (Z.quot e 36)) as [d|] eqn:Ed.
  2:{ assert (Es : _step rnd e s = (None, s)) by (unfold _step; rewrite Ed; reflexivity).
      rewrite Es. split; auto. }
  assert (Es : _step rnd e s = for_each initial_keys (_update_varying_register rnd)
                 (set_values (sparse_setValues (values s) _HOUR_METER (VDict d)) s))
    by (unfold _step; rewrite Ed; reflexivity).
  destruct (loop_ok rnd initial_keys
              (set_values (sparse_setValues (values s) _HOUR_METER (VDict d)) s) (fun _ => False))
    as (s' & E & HL' & HP'); [auto | exact HL | intros a [] |].
  rewrite Es.   rewrite E. cbn [snd]. split; [exact HL'|].
  intros a [w Hw]. apply HP'. right. exact (Catalog.ef_visited _ _ (Catalog.entry_facts_of a w Hw)).
Qed.

End Engine.

(** ** What the registers hold after ticks *)

Module Ticks.
Import Engine.

(** The cache entry the loop leaves at each visited address: one walk
    step from the previous entry, with some draw of the stream. *)
Lemma loop_next (rnd : nat -> Z) (keys : list Z) (s : block) :
  NoDup keys -> (forall k, k ∈ keys -> k ∈ initial_keys) -> L_of (_last_values s) ->
  forall a, a ∈ keys -> exists c,
  _last_values (snd (for_each keys (_update_varying_register rnd) s)) !! a
  = Some (next_last (fst (limits_of a)) (snd (limits_of a)) (_last_values s !! a) (rnd c)).
Proof.
  revert s. induction keys as [|k keys IH]; intros s Hnd Hkeys HL a Ha.
  - by apply not_elem_of_nil in Ha.
  - apply NoDup_cons in Hnd as [Hk Hnd].
    destruct (update_ok rnd k s) as (s1 & E1 & HL1 & _ & Hlast & _);
      [apply Hkeys, elem_of_cons; auto | apply HL |]. specialize (HL1 HL).
    pose proof (update_frame rnd k s) as [_ Hl]. rewrite E1 in Hl. cbn [snd] in Hl.
    cbn [for_each]. unfold bind. rewrite E1.
    apply elem_of_cons in Ha as [-> | Ha].
    + exists (rng_calls s). rewrite loop_last_other by done. exact Hlast.
    + destruct (IH s1 Hnd) with (a := a) as [c Hc]; auto.
      { intros x Hx. apply Hkeys, elem_of_cons. auto. }
      exists c. rewrite Hc, Hl by (intros ->; contradiction). reflexivity.
Qed.

Lemma step_unfold (rnd : nat -> Z) (e : Z) (s : block) (d : list (Z * Z)) :
  _expand_register_value _HOUR_METER (Z.quot e 36) = Some d ->
  _step rnd e s = for_each initial_keys (_update_varying_register rnd)
                    (set_values (sparse_setValues (values s) _HOUR_METER (VDict d)) s).
Proof. intros Ed. unfold _step. rewrite Ed. reflexivity. Qed.

(** The value a register shows after reading [Pa]. *)
Lemma read_Pa (s : block) (a : Z) :
  Pa s a -> exists v, read_logical (values s) a = Some v /\
    fst (limits_of a) <= v <= snd (limits_of a) /\
    (forall v', _last_values s !! a = Some v' -> v' = v).
Proof.
  intros (w & v & ws & Hw & Hv & Hp & Hg & Hl).
  destruct (expand_ok a w v Hw Hv) as (ws' & Hp' & Hu & _).
  exists v. split; [|split; assumption].
  unfold read_logical. rewrite Hw, Hg. cbn. congruence.
Qed.

Definition Inv (s : block) : Prop :=
  L_of (_last_values s) /\ (forall a, is_Some (_ALL_REGISTERS !! a) -> Pa s a).

Lemma seeded_last : _last_values seeded = ∅.
Proof. vm_compute. reflexivity. Qed.

Lemma seeded_Inv : Inv seeded.
Proof.
  split.
  - intros k v. rewrite seeded_last, lookup_empty. discriminate.
  - intros a [w Hw]. pose proof (Catalog.entry_facts_of a w Hw) as F.
    destruct (expand_ok a w (Catalog.initial_value a) Hw (Catalog.ef_init _ _ F))
      as (ws & Hp & _ & _).
    exists w, (Catalog.initial_value a), ws. split; [done|].
    split; [exact (Catalog.ef_init _ _ F)|]. split; [done|]. split.
    + rewrite (Catalog.ef_seed _ _ F). exact Hp.
    + intros v'. rewrite seeded_last, lookup_empty. discriminate.
Qed.

Lemma run_Inv (rnd : nat -> Z) (els : list Z) (s : block) : Inv s -> Inv (run rnd els s).
Proof.
  revert s. induction els as [|e els IH]; intros s [HL HP]; [split; auto|].
  pose proof (step_inv rnd e s HL HP) as Hs. cbn [run].
  destruct (_step rnd e s) as [[[]|] s']; cbn [snd] in Hs; [apply IH|]; exact Hs.
Qed.

(** After a tick whose hour-meter write succeeds, each register shows
    and caches one walk step from its previous cache entry. *)
Lemma after_step (rnd : nat -> Z) (e : Z) (s : block) (a w : Z) :
  Inv s -> is_Some (_expand_register_value _HOUR_METER (Z.quot e 36)) ->
  _ALL_REGISTERS !! a = Some w ->
  exists c v, v = next_last (fst (limits_of a)) (snd (limits_of a)) (_last_values s !! a) (rnd c) /\
    read_logical (values (snd (_step rnd e s))) a = Some v /\
    _last_values (snd (_step rnd e s)) !! a = Some v.
Proof.
  intros [HL HP] [d Ed] Hw.
  pose proof (step_inv rnd e s HL HP) as [_ HP'].
  destruct (read_Pa _ a (HP' a (mk_is_Some _ _ Hw))) as (v & Hr & _ & Hv).
  rewrite (step_unfold rnd e s d Ed) in Hr, Hv |- *.
  destruct (loop_next rnd initial_keys
              (set_values (sparse_setValues (values s) _HOUR_METER (VDict d)) s))
    with (a := a) as [c Hc];
    [exact Catalog.initial_keys_NoDup | auto | exact HL
    | exact (Catalog.ef_visited _ _ (Catalog.entry_facts_of a w Hw)) |].
  cbn [_last_values set_values] in Hc.
  exists c, (next_last (fst (limits_of a)) (snd (limits_of a)) (_last_values s !! a) (rnd c)).
  split; [reflexivity|]. rewrite Hc. split; [|reflexivity].
  rewrite Hr. f_equal. symmetry. apply Hv. exact Hc.
Qed.

Lemma hour_meter_registered : _ALL_REGISTERS !! _HOUR_METER = Some 2.
Proof. vm_compute. reflexivity. Qed.

(** The first tick of [create()] makes every register show the midpoint
    of the range its walk uses. *)
Lemma created_read (rnd : nat -> Z) (a w : Z) :
  _ALL_REGISTERS !! a = Some w ->
  read_logical (values (created rnd)) a
  = Some (Z.quot (fst (limits_of a) + snd (limits_of a)) 2) /\
  _last_values (created rnd) !! a
  = Some (Z.quot (fst (limits_of a) + snd (limits_of a)) 2).
Proof.
  intros Hw. unfold created.
  destruct (after_step rnd 0 seeded a w seeded_Inv) as (c & v & -> & Hr & Hl); [|exact Hw|].
  - destruct (expand_ok _HOUR_METER 2 0 hour_meter_registered) as (ws & _ & _ & He);
      [vm_compute; split; discriminate|].
    rewrite Z.quot_0_l by lia. rewrite He. eauto.
  - rewrite seeded_last, lookup_empty in Hr, Hl. cbn [next_last] in Hr, Hl. auto.
Qed.

Lemma created_Inv (rnd : nat -> Z) : Inv (created rnd).
Proof. destruct seeded_Inv as [HL HP]. exact (step_inv rnd 0 seeded HL HP). Qed.

End Ticks.

(** ** The backed word slots never change *)

Module Backing.

(** The word slots that hold a value are those of the seeded store. *)
Definition Dseed (h : gmap Z Z) : Prop :=
  forall x, is_Some (h !! x) <-> is_Some (values seeded !! x).

Lemma slots_backed (k x : Z) : x ∈ Catalog.slots k -> is_Some (values seeded !! x).
Proof.
  unfold Catalog.slots, Catalog.width_of.
  destruct (_ALL_REGISTERS !! k) as [w|] eqn:Hw; cbn [default].
  - exact (Catalog.ef_backed _ _ (Catalog.entry_facts_of k w Hw) x).
  - intros H. exfalso. exact (not_elem_of_nil x H).
Qed.

Lemma Dseed_frame (S : list Z) (h h' : gmap Z Z) :
  Dseed h -> Store.vframe S h h' -> (forall x, x ∈ S -> is_Some (values seeded !! x)) ->
  Dseed h'.
Proof.
  intros HD [Hf Hs] HS x. destruct (decide (x ∈ S)) as [Hx|Hx].
  - split; [intros _; apply HS, Hx|]. intros H. apply Hs, HD, H.
  - rewrite Hf by exact Hx. apply HD.
Qed.

Lemma update_Dseed (rnd : nat -> Z) (k : Z) (s : block) :
  Dseed (values s) -> Dseed (values (snd (_update_varying_register rnd k s))).
Proof.
  intros HD. pose proof (Engine.update_frame rnd k s) as [Hf _].
  eapply Dseed_frame; [exact HD | exact Hf | apply slots_backed].
Qed.

Lemma loop_Dseed (rnd : nat -> Z) (keys : list Z) (s : block) :
  Dseed (values s) -> Dseed (values (snd (for_each keys (_update_varying_register rnd) s))).
Proof.
  revert s. induction keys as [|k keys IH]; intros s HD; [exact HD|].
  cbn [for_each]. unfold bind.
  pose proof (update_Dseed rnd k s HD) as HD1.
  destruct (_update_varying_register rnd k s) as [[[]|] s1]; cbn [snd] in *; auto.
Qed.

Lemma step_Dseed (rnd : nat -> Z) (e : Z) (s : block) :
  Dseed (values s) -> Dseed (values (snd (_step rnd e s))).
Proof.
  intros HD. destruct (_expand_register_value _HOUR_METER (Z.quot e 36)) as [d|] eqn:Ed.
  - rewrite (Ticks.step_unfold rnd e s d Ed). apply loop_Dseed. cbn [values set_values].
    eapply Dseed_frame; [exact HD | | apply slots_backed].
    rewrite Store.sparse_setValues_dict. eapply Store.vframe_expand. exact Ed.
  - unfold _step. rewrite Ed. exact HD.
Qed.

Lemma run_Dseed (rnd : nat -> Z) (els : list Z) (s : block) :
  Dseed (values s) -> Dseed (values (run rnd els s)).
Proof.
  revert s. induction els as [|e els IH]; intros s HD; [exact HD|].
  pose proof (step_Dseed rnd e s HD) as HD1. cbn [run].
  destruct (_step rnd e s) as [[[]|] s']; cbn [snd] in HD1; auto.
Qed.

Lemma validate_Dseed (h : gmap Z Z) (a c : Z) :
  Dseed h -> sparse_validate h a c = sparse_validate (values seeded) a c.
Proof.
  intros HD. unfold sparse_validate. destruct (c =? 0); [reflexivity|].
  generalize (zrange a c). intros l. induction l as [|x l IH]; [reflexivity|].
  cbn [forallb]. rewrite IH. f_equal. apply bool_decide_ext, HD.
Qed.

End Backing.

(** ** Further facts *)

Module Facts.

(** A list written by [ModbusSparseDataBlock.setValues] lands at
    consecutive word addresses. *)
Lemma list_write_lookup (store : gmap Z Z) (address : Z) (l : list Z) (j : nat) (x : Z) :
  foldl (fun m '(idx, val) => <[address + Z.of_nat idx := val]> m) store
        (zip (seq j (length l)) l) !! x
  = if (address + Z.of_nat j <=? x) && (x <? address + Z.of_nat j + Z.of_nat (length l))
    then l !! Z.to_nat (x - address - Z.of_nat j) else store !! x.
Proof.
  revert j store. induction l as [|v l IH]; intros j store.
  - cbn [length seq zip foldl].
    destruct ((address + Z.of_nat j <=? x) && (x <? address + Z.of_nat j + Z.of_nat 0)) eqn:E;
      [|reflexivity].
    apply andb_true_iff in E as [E1 E2]. apply Z.leb_le in E1. apply Z.ltb_lt in E2. lia.
  - cbn [length seq zip foldl]. rewrite IH. rewrite !Nat2Z.inj_succ.
    destruct (Z.eq_dec x (address + Z.of_nat j)) as [-> | Hne].
    + replace (address + Z.succ (Z.of_nat j) <=? address + Z.of_nat j) with false
        by (symmetry; apply Z.leb_gt; lia).
      replace ((address + Z.of_nat j <=? address + Z.of_nat j) &&
               (address + Z.of_nat j <? address + Z.of_nat j + Z.succ (Z.of_nat (length l))))
        with true by (symmetry; apply andb_true_iff; split; [apply Z.leb_le | apply Z.ltb_lt]; lia).
      cbn [andb]. rewrite lookup_insert_eq.
      replace (Z.to_nat (address + Z.of_nat j - address - Z.of_nat j)) with 0%nat by lia.
      reflexivity.
    + destruct (Z.leb_spec (address + Z.succ (Z.of_nat j)) x);
      destruct (Z.ltb_spec x (address + Z.succ (Z.of_nat j) + Z.of_nat (length l)));
      destruct (Z.leb_spec (address + Z.of_nat j) x);
      destruct (Z.ltb_spec x (address + Z.of_nat j + Z.succ (Z.of_nat (length l))));
      cbn [andb]; try lia;
      first
        [ replace (Z.to_nat (x - address - Z.of_nat j))
            with (S (Z.to_nat (x - address - Z.succ (Z.of_nat j)))) by lia;
          reflexivity
        | apply lookup_insert_ne; lia ].
Qed.

Lemma hour_meter_expand (e : Z) :
  0 <= e < 36 * 2 ^ 31 -> is_Some (_expand_register_value _HOUR_METER (Z.quot e 36)).
Proof.
  intros He. unfold _expand_register_value. rewrite Ticks.hour_meter_registered.
  unfold _pack_value. cbn [_REGISTER_TYPES].
  rewrite Z.quot_div_nonneg by lia.
  assert (0 <= e / 36 < 2 ^ 31)
    by (split; [apply Z.div_pos | apply Z.div_lt_upper_bound]; lia).
  replace ((- 2 ^ (32 - 1) <=? e / 36) && (e / 36 <? 2 ^ (32 - 1))) with true
    by (symmetry; apply andb_true_iff; split; [apply Z.leb_le | apply Z.ltb_lt]; lia).
  eexists. reflexivity.
Qed.

Lemma bounded_check :
  forallb (fun '(k, _) => bool_decide (is_Some (_ALL_REGISTERS !! k)))
          (map_to_list REGISTER_LIMITS) = true.
Proof. vm_compute. reflexivity. Qed.

(** Every bounded address is a register. *)
Lemma bounded_registered (a : Z) (l : Z * Z) :
  REGISTER_LIMITS !! a = Some l -> exists w, _ALL_REGISTERS !! a = Some w.
Proof.
  intros H. pose proof bounded_check as C. rewrite forallb_forall in C.
  assert (Hin : In (a, l) (map_to_list REGISTER_LIMITS))
    by (rewrite <- list_elem_of_In; by apply elem_of_map_to_list).
  specialize (C _ Hin). by apply bool_decide_eq_true_1 in C.
Qed.

(** The initial value of a register as the spec states it. *)
Definition spec_initial (a : Z) : Z :=
  match REGISTER_LIMITS !! a with
  | Some (mn, mx) => (mn + mx) / 2
  | None => 0
  end.

Lemma initial_check :
  forallb (fun '(k, _) => Catalog.initial_value k =? spec_initial k)
          (map_to_list _ALL_REGISTERS) = true.
Proof. vm_compute. reflexivity. Qed.

Lemma initial_value_spec (a w : Z) :
  _ALL_REGISTERS !! a = Some w -> Catalog.initial_value a = spec_initial a.
Proof.
  intros H. pose proof initial_check as C. rewrite forallb_forall in C.
  assert (Hin : In (a, w) (map_to_list _ALL_REGISTERS))
    by (rewrite <- list_elem_of_In; by apply elem_of_map_to_list).
  specialize (C _ Hin). by apply Z.eqb_eq in C.
Qed.

(** Before any tick, a register shows its initial value. *)
Lemma seeded_read (a w : Z) :
  _ALL_REGISTERS !! a = Some w ->
  read_logical (values seeded) a = Some (Catalog.initial_value a).
Proof.
  intros Hw. pose proof (Catalog.entry_facts_of a w Hw) as F.
  destruct (Engine.expand_ok a w _ Hw (Catalog.ef_init _ _ F)) as (ws & Hp & Hu & _).
  unfold read_logical. rewrite Hw, (Catalog.ef_seed _ _ F), Hp. cbn [option_map].
  rewrite Hu. reflexivity.
Qed.

(** One tick of the block [create()] returns, with a constant draw [d],
    moves register 50520 one walk step from 25000. *)
Lemma tick_50520 (d e : Z) :
  0 <= e < 36 * 2 ^ 31 ->
  read_logical (values (snd (_step (fun _ => d) e (created (fun _ => d))))) 50520
  = Some (Engine.next_last 0 50000 (Some 25000) d).
Proof.
  intros He.
  assert (Hw : _ALL_REGISTERS !! 50520 = Some 2) by (vm_compute; reflexivity).
  destruct (Ticks.after_step (fun _ => d) e (created (fun _ => d)) 50520 2
              (Ticks.created_Inv _) (hour_meter_expand e He) Hw) as (c & v & -> & Hr & _).
  rewrite Hr, (proj2 (Ticks.created_read (fun _ => d) 50520 2 Hw)).
  replace (limits_of 50520) with (0, 50000) by (vm_compute; reflexivity).
  reflexivity.
Qed.

End Facts.

(** ** Codec, store and initialisation facts *)

Module More.

(** [_pack_value] returns its words exactly for the widths of
    [_REGISTER_TYPES] and the values of their signed ranges. *)
Lemma pack_some_bits (v w : Z) (ws : list Z) :
  _pack_value v w = Some ws ->
  _REGISTER_TYPES w = Some (16 * w) /\ - 2 ^ (16 * w - 1) <= v < 2 ^ (16 * w - 1).
Proof.
  unfold _pack_value. destruct (_REGISTER_TYPES w) as [bits|] eqn:Hw; [|discriminate].
  destruct ((- 2 ^ (bits - 1) <=? v) && (v <? 2 ^ (bits - 1))) eqn:Hc; [|discriminate].
  intros _. apply andb_true_iff in Hc as [H1 H2]. apply Z.leb_le in H1. apply Z.ltb_lt in H2.
  assert (bits = 16 * w) as <- by (destruct (Codec.register_type_bits w bits Hw); lia).
  auto.
Qed.

Lemma pack_defined (v w : Z) :
  is_Some (_pack_value v w) <->
  (w = 1 \/ w = 2 \/ w = 4) /\ - 2 ^ (16 * w - 1) <= v < 2 ^ (16 * w - 1).
Proof.
  split.
  - intros [ws Hp]. destruct (pack_some_bits v w ws Hp) as [Ht Hv]. split; [|exact Hv].
    destruct (Codec.register_type_cases w _ Ht) as [[-> _]|[[-> _]|[-> _]]]; auto.
  - intros [Hw Hv].
    assert (Ht : _REGISTER_TYPES w = Some (16 * w))
      by (destruct Hw as [-> | [-> | ->]]; reflexivity).
    rewrite (Codec.pack_value_words v w (16 * w) Ht Hv). eauto.
Qed.

Lemma pack_words16 (v w : Z) (ws : list Z) :
  _pack_value v w = Some ws -> Forall (fun x => 0 <= x < 65536) ws.
Proof.
  unfold _pack_value. destruct (_REGISTER_TYPES w); [|discriminate].
  destruct (_ && _); [|discriminate]. intros [= <-].
  apply Forall_forall. intros x Hx. apply list_elem_of_In, in_map_iff in Hx as [i [<- _]].
  change 65535 with (Z.ones 16). rewrite Z.land_ones by lia.
  apply Z.mod_pos_bound. lia.
Qed.

Lemma pack_inj (v v' w : Z) (ws : list Z) :
  _pack_value v w = Some ws -> _pack_value v' w = Some ws -> v = v'.
Proof.
  intros H H'.
  destruct (pack_some_bits v w ws H) as [Ht Hv]. destruct (pack_some_bits v' w ws H') as [_ Hv'].
  destruct (Codec.unpack_pack_value v w _ Ht Hv) as (ws1 & E1 & _ & U1).
  destruct (Codec.unpack_pack_value v' w _ Ht Hv') as (ws2 & E2 & _ & U2).
  rewrite H in E1. rewrite H' in E2. injection E1 as <-. injection E2 as <-. congruence.
Qed.

Lemma expand_defined (a w v : Z) :
  _ALL_REGISTERS !! a = Some w ->
  is_Some (_expand_register_value a v) <-> is_Some (_pack_value v w).
Proof.
  intros Hw. unfold _expand_register_value. rewrite Hw.
  destruct (_pack_value v w) as [ws|].
  - split; intros _; eexists; reflexivity.
  - split; intros [? H]; discriminate H.
Qed.

Lemma elem_of_zrange_any (a n x : Z) : x ∈ zrange a n <-> a <= x < a + n.
Proof.
  destruct (Z.le_gt_cases 0 n) as [Hn|Hn]; [by apply Catalog.elem_of_zrange|].
  unfold zrange. replace (Z.to_nat n) with 0%nat by lia. cbn [seq map].
  split; [intros H; exfalso; exact (not_elem_of_nil x H) | lia].
Qed.

Lemma map_seq_lookup (a : Z) (m j i : nat) (x : Z) :
  map (fun i : nat => a + Z.of_nat i) (seq j m) !! i = Some x ->
  x = a + Z.of_nat (j + i) /\ (i < m)%nat.
Proof.
  revert i j. induction m as [|m IH]; intros i j H; [discriminate|].
  cbn [seq map] in H. destruct i as [|i].
  - injection H as <-. split; [f_equal; lia | lia].
  - destruct (IH i (S j) H) as [-> Hi]. split; [f_equal; lia | lia].
Qed.

Lemma zrange_lookup (a n : Z) (i : nat) (x : Z) :
  zrange a n !! i = Some x -> x = a + Z.of_nat i /\ (i < Z.to_nat n)%nat.
Proof. intros H. exact (map_seq_lookup a _ 0 i x H). Qed.

(** A word slot [x] of some register among [keys]. *)
Definition in_slots (keys : list Z) (x : Z) : Prop :=
  exists k w, k ∈ keys /\ _ALL_REGISTERS !! k = Some w /\ k <= x < k + w.

Lemma dict_write_is_Some_iff (h : gmap Z Z) (d : list (Z * Z)) (x : Z) :
  is_Some (Store.dict_write h d !! x) <-> is_Some (h !! x) \/ x ∈ map fst d.
Proof.
  unfold Store.dict_write. revert h. induction d as [|[k v] d IH]; intros h.
  - cbn. split; [auto|]. intros [H|H]; [exact H|]. exfalso. exact (not_elem_of_nil x H).
  - cbn [foldl map fst]. rewrite IH, elem_of_cons, lookup_insert_is_Some'.
    split; [intros [[-> | H] | H] | intros [H | [-> | H]]]; auto.
Qed.

Lemma dict_write_lookup_inv (h : gmap Z Z) (d : list (Z * Z)) (x v : Z) :
  Store.dict_write h d !! x = Some v -> h !! x = Some v \/ In (x, v) d.
Proof.
  unfold Store.dict_write. revert h. induction d as [|[k u] d IH]; intros h H; [auto|].
  cbn [foldl] in H. destruct (IH _ H) as [H'|H']; [|right; right; exact H'].
  destruct (decide (x = k)) as [-> | Hne].
  - rewrite lookup_insert_eq in H'. injection H' as <-. right. left. reflexivity.
  - rewrite lookup_insert_ne in H' by congruence. auto.
Qed.

Lemma In_zip_r (l k : list Z) (x v : Z) : In (x, v) (zip l k) -> In v k.
Proof.
  intros H. apply list_elem_of_In. apply (elem_of_zip_r x v l k).
  by apply list_elem_of_In.
Qed.

(** The fold of [__init__] over the registers. *)
Definition init_step (vals : gmap Z Z) (acc : option (gmap Z Z)) (addr : Z)
  : option (gmap Z Z) :=
  match acc, _expand_register_value addr (default 0 (vals !! addr)) with
  | Some m, Some d => Some (Store.dict_write m d)
  | _, _ => None
  end.

Lemma expanded_values_fold (vals : gmap Z Z) :
  expanded_values vals = foldl (init_step vals) (Some ∅) initial_keys.
Proof. reflexivity. Qed.

Lemma init_fold_None (vals : gmap Z Z) (keys : list Z) :
  foldl (init_step vals) None keys = None.
Proof. induction keys as [|k keys IH]; [reflexivity|]. exact IH. Qed.

Lemma init_fold_fail (vals : gmap Z Z) (keys : list Z) (a : Z) (m : gmap Z Z) :
  a ∈ keys -> _expand_register_value a (default 0 (vals !! a)) = None ->
  foldl (init_step vals) (Some m) keys = None.
Proof.
  revert m. induction keys as [|k keys IH]; intros m Ha Hf.
  - exfalso. exact (not_elem_of_nil a Ha).
  - cbn [foldl]. unfold init_step at 2.
    destruct (_expand_register_value k (default 0 (vals !! k))) as [d|] eqn:Ek.
    + apply elem_of_cons in Ha as [-> | Ha]; [congruence|]. apply IH; auto.
    + apply init_fold_None.
Qed.

Lemma init_fold_ok (vals : gmap Z Z) (keys : list Z) (m : gmap Z Z) :
  NoDup keys -> (forall k, k ∈ keys -> is_Some (_ALL_REGISTERS !! k)) ->
  (forall k, k ∈ keys -> is_Some (_expand_register_value k (default 0 (vals !! k)))) ->
  exists m', foldl (init_step vals) (Some m) keys = Some m' /\
    (forall a w, a ∈ keys -> _ALL_REGISTERS !! a = Some w ->
       sparse_getValues m' a w = _pack_value (default 0 (vals !! a)) w) /\
    (forall x, ~ in_slots keys x -> m' !! x = m !! x) /\
    (forall x, is_Some (m' !! x) <-> is_Some (m !! x) \/ in_slots keys x).
Proof.
  revert m. induction keys as [|k keys IH]; intros m Hnd Hreg Hexp.
  - exists m. split; [reflexivity|]. split; [intros a w Ha; exfalso; exact (not_elem_of_nil a Ha)|].
    split; [reflexivity|]. intros x. split; [auto|].
    intros [H|(k & w & Hk & _)]; [exact H|]. exfalso. exact (not_elem_of_nil k Hk).
  - apply NoDup_cons in Hnd as [Hk Hnd].
    destruct (Hexp k (list_elem_of_here _ _)) as [d Ed].
    destruct (Store.expand_spec _ _ _ Ed) as (w & ws & Hw & Hp & Hl & ->).
    destruct (IH (Store.dict_write m (zip (zrange k w) ws))) as (m' & E' & HG & HF & HS).
    { exact Hnd. }
    { intros x Hx. apply Hreg, list_elem_of_further, Hx. }
    { intros x Hx. apply Hexp, list_elem_of_further, Hx. }
    assert (Hfst : map fst (zip (zrange k w) ws) = zrange k w)
      by (apply Store.map_fst_zip; by rewrite Store.zrange_length).
    pose proof (Catalog.width_pos _ _ Hw) as Hwp.
    exists m'. cbn [foldl]. unfold init_step at 2. rewrite Ed. split; [exact E'|]. split.
    + intros a wa Ha Hwa. apply elem_of_cons in Ha as [-> | Ha]; [|by apply HG].
      assert (wa = w) as -> by congruence.
      rewrite Hp. rewrite <- (Store.getValues_dict_write m k w ws Hl).
      apply Store.getValues_ext. intros x Hx. apply HF.
      intros (k' & w' & Hk' & Hw' & Hx').
      assert (k' <> k) by (intros ->; contradiction).
      apply (Catalog.slots_disjoint k k' w w' x Hw Hw' ltac:(congruence) Hx).
      apply elem_of_zrange_any. exact Hx'.
    + split.
      * intros x Hx. rewrite HF.
        -- apply Store.dict_write_other. rewrite Hfst, elem_of_zrange_any. intros Hx'.
           apply Hx. exists k, w. split; [apply list_elem_of_here|]. auto.
        -- intros (k' & w' & Hk' & Hw' & Hx'). apply Hx. exists k', w'.
           split; [by apply list_elem_of_further|]. auto.
      * intros x. rewrite HS, dict_write_is_Some_iff, Hfst, elem_of_zrange_any.
        split.
        -- intros [[H|H]|(k' & w' & Hk' & Hw' & Hx')]; [auto| |].
           ++ right. exists k, w. split; [apply list_elem_of_here|]. auto.
           ++ right. exists k', w'. split; [by apply list_elem_of_further|]. auto.
        -- intros [H|(k' & w' & Hk' & Hw' & Hx')]; [auto|].
           apply elem_of_cons in Hk' as [-> | Hk'].
           ++ rewrite Hw' in Hw. injection Hw as ->. auto.
           ++ right. exists k', w'. auto.
Qed.

Lemma in_slots_catalog (x : Z) :
  in_slots initial_keys x <-> exists k w, _ALL_REGISTERS !! k = Some w /\ k <= x < k + w.
Proof.
  split.
  - intros (k & w & _ & Hw & Hx). eauto.
  - intros (k & w & Hw & Hx). exists k, w. split; [|auto].
    exact (Catalog.ef_visited _ _ (Catalog.entry_facts_of k w Hw)).
Qed.

Lemma initial_keys_is_Some (k : Z) : k ∈ initial_keys -> is_Some (_ALL_REGISTERS !! k).
Proof. intros H. destruct (Catalog.initial_key_registered k H) as [w Hw]. by exists w. Qed.

Lemma dom_sub (vals : gmap Z Z) :
  (forall a, is_Some (vals !! a) -> is_Some (_ALL_REGISTERS !! a)) <->
  dom vals ⊆ dom _ALL_REGISTERS.
Proof.
  split.
  - intros H x. rewrite !elem_of_dom. apply H.
  - intros H x Hx. apply elem_of_dom. apply H. by apply elem_of_dom.
Qed.

End More.

(** ** Tick facts beyond the claims *)

Module More2.
Import Engine.

(** A property of the store that every register write of an expansion
    keeps is kept by updates, loops, ticks and runs. *)
Section StorePres.
Variable P : gmap Z Z -> Prop.
Hypothesis HP : forall h a v d, P h -> _expand_register_value a v = Some d ->
  P (Store.dict_write h d).

Lemma update_pres (rnd : nat -> Z) (k : Z) (s : block) :
  P (values s) -> P (values (snd (_update_varying_register rnd k s))).
Proof.
  intros Hh. destruct s as [h l c]. cbn [values] in Hh. unfold _update_varying_register.
  destruct (limits_of k) as [lo hi]. mstep. msplit.
  all: first [ rewrite Store.sparse_setValues_dict; eapply HP; [exact Hh | eassumption]
             | exact Hh ].
Qed.

Lemma loop_pres (rnd : nat -> Z) (keys : list Z) (s : block) :
  P (values s) -> P (values (snd (for_each keys (_update_varying_register rnd) s))).
Proof.
  revert s. induction keys as [|k keys IH]; intros s Hh; [exact Hh|].
  cbn [for_each]. unfold bind.
  pose proof (update_pres rnd k s Hh) as H1.
  destruct (_update_varying_register rnd k s) as [[[]|] s1]; cbn [snd] in *; auto.
Qed.

Lemma step_pres (rnd : nat -> Z) (e : Z) (s : block) :
  P (values s) -> P (values (snd (_step rnd e s))).
Proof.
  intros Hh. destruct (_expand_register_value _HOUR_METER (Z.quot e 36)) as [d|] eqn:Ed.
  - rewrite (Ticks.step_unfold rnd e s d Ed). apply loop_pres. cbn [values set_values].
    rewrite Store.sparse_setValues_dict. eapply HP; [exact Hh | exact Ed].
  - unfold _step. rewrite Ed. exact Hh.
Qed.

Lemma run_pres (rnd : nat -> Z) (els : list Z) (s : block) :
  P (values s) -> P (values (run rnd els s)).
Proof.
  revert s. induction els as [|e els IH]; intros s Hh; [exact Hh|].
  pose proof (step_pres rnd e s Hh) as H1. cbn [run].
  destruct (_step rnd e s) as [[[]|] s']; cbn [snd] in H1; auto.
Qed.

End StorePres.

(** Every stored word is an unsigned 16-bit value. *)
Definition Word16 (h : gmap Z Z) : Prop := forall x v, h !! x = Some v -> 0 <= v < 65536.

Lemma word16_write (h : gmap Z Z) (a v : Z) (d : list (Z * Z)) :
  Word16 h -> _expand_register_value a v = Some d -> Word16 (Store.dict_write h d).
Proof.
  intros Hh He x u Hx. apply More.dict_write_lookup_inv in Hx as [Hx|Hx]; [exact (Hh _ _ Hx)|].
  destruct (Store.expand_spec _ _ _ He) as (w & ws & _ & Hp & _ & ->).
  apply More.In_zip_r in Hx. pose proof (More.pack_words16 _ _ _ Hp) as F.
  rewrite Forall_forall in F. apply F. by apply list_elem_of_In.
Qed.

Lemma seeded_words_check :
  forallb (fun '(_, v) => (0 <=? v) && (v <? 65536)) (map_to_list (values seeded)) = true.
Proof. vm_compute. reflexivity. Qed.

Lemma seeded_word16 : Word16 (values seeded).
Proof.
  intros x v Hx. pose proof seeded_words_check as C. rewrite forallb_forall in C.
  assert (Hin : In (x, v) (map_to_list (values seeded)))
    by (rewrite <- list_elem_of_In; by apply elem_of_map_to_list).
  specialize (C _ Hin). apply andb_true_iff in C as [C1 C2].
  apply Z.leb_le in C1. apply Z.ltb_lt in C2. lia.
Qed.

(** Every register has a cache entry. *)
Definition Full (s : block) : Prop :=
  forall a w, _ALL_REGISTERS !! a = Some w -> is_Some (_last_values s !! a).

Lemma step_Full (rnd : nat -> Z) (e : Z) (s : block) :
  Ticks.Inv s -> Full s -> Full (snd (_step rnd e s)).
Proof.
  intros HI HF a w Hw.
  destruct (_expand_register_value _HOUR_METER (Z.quot e 36)) as [d|] eqn:Ed.
  - destruct (Ticks.after_step rnd e s a w HI ltac:(eexists; exact Ed) Hw)
      as (c & v & _ & _ & Hl). rewrite Hl. eauto.
  - unfold _step. rewrite Ed. exact (HF a w Hw).
Qed.

Lemma run_Full (rnd : nat -> Z) (els : list Z) (s : block) :
  Ticks.Inv s -> Full s -> Ticks.Inv (run rnd els s) /\ Full (run rnd els s).
Proof.
  revert s. induction els as [|e els IH]; intros s HI HF; [auto|].
  pose proof (step_Full rnd e s HI HF) as HF1.
  destruct HI as [HL HP']. pose proof (step_inv rnd e s HL HP') as HI1. cbn [run].
  destruct (_step rnd e s) as [[[]|] s']; cbn [snd] in HF1, HI1; [apply IH|]; auto.
Qed.

Lemma created_Full (rnd : nat -> Z) : Full (created rnd).
Proof.
  intros a w Hw. rewrite (proj2 (Ticks.created_read rnd a w Hw)). eauto.
Qed.

(** The register of [a] after a tick whose hour-meter write succeeds: one
    walk step from its cache entry, whatever the store held before. *)
Lemma step_after (rnd : nat -> Z) (e : Z) (s : block) (a w : Z) :
  L_of (_last_values s) -> is_Some (_expand_register_value _HOUR_METER (Z.quot e 36)) ->
  _ALL_REGISTERS !! a = Some w ->
  exists c v ws,
    v = next_last (fst (limits_of a)) (snd (limits_of a)) (_last_values s !! a) (rnd c) /\
    _last_values (snd (_step rnd e s)) !! a = Some v /\
    fst (limits_of a) <= v <= snd (limits_of a) /\
    _pack_value v w = Some ws /\ sparse_getValues (values (snd (_step rnd e s))) a w = Some ws.
Proof.
  intros HL [d Ed] Hw. rewrite (Ticks.step_unfold rnd e s d Ed).
  set (s0 := set_values (sparse_setValues (values s) _HOUR_METER (VDict d)) s).
  pose proof (Catalog.ef_visited _ _ (Catalog.entry_facts_of a w Hw)) as Hk.
  destruct (loop_ok rnd initial_keys s0 (fun _ => False)) as (s' & E & _ & HP');
    [auto | exact HL | intros ? [] |].
  destruct (Ticks.loop_next rnd initial_keys s0 Catalog.initial_keys_NoDup) with (a := a)
    as [c Hc]; [auto | exact HL | exact Hk |].
  rewrite E in Hc |- *. cbn [snd] in Hc |- *.
  destruct (HP' a (or_intror Hk)) as (w' & v & ws & Hw' & Hv & Hp & Hg & Hl).
  rewrite Hw in Hw'. injection Hw' as <-.
  pose proof (Hl _ Hc) as Hv'. subst v.
  exists c, (next_last (fst (limits_of a)) (snd (limits_of a)) (_last_values s0 !! a) (rnd c)), ws.
  auto 10.
Qed.

(** What a tick does to the cache and the draw counter does not depend
    on the store. *)
Lemma update_indep (rnd : nat -> Z) (k : Z) (h1 h2 l : gmap Z Z) (c : nat) :
  fst (_update_varying_register rnd k (mkBlock h1 l c))
  = fst (_update_varying_register rnd k (mkBlock h2 l c)) /\
  _last_values (snd (_update_varying_register rnd k (mkBlock h1 l c)))
  = _last_values (snd (_update_varying_register rnd k (mkBlock h2 l c))) /\
  rng_calls (snd (_update_varying_register rnd k (mkBlock h1 l c)))
  = rng_calls (snd (_update_varying_register rnd k (mkBlock h2 l c))).
Proof.
  unfold _update_varying_register. destruct (limits_of k) as [lo hi]. mstep. msplit.
  all: repeat split.
Qed.

Lemma loop_indep (rnd : nat -> Z) (keys : list Z) (h1 h2 l : gmap Z Z) (c : nat) :
  fst (for_each keys (_update_varying_register rnd) (mkBlock h1 l c))
  = fst (for_each keys (_update_varying_register rnd) (mkBlock h2 l c)) /\
  _last_values (snd (for_each keys (_update_varying_register rnd) (mkBlock h1 l c)))
  = _last_values (snd (for_each keys (_update_varying_register rnd) (mkBlock h2 l c))) /\
  rng_calls (snd (for_each keys (_update_varying_register rnd) (mkBlock h1 l c)))
  = rng_calls (snd (for_each keys (_update_varying_register rnd) (mkBlock h2 l c))).
Proof.
  revert h1 h2 l c. induction keys as [|k keys IH]; intros h1 h2 l c; [repeat split|].
  cbn [for_each]. unfold bind.
  pose proof (update_indep rnd k h1 h2 l c) as (E1 & E2 & E3).
  destruct (_update_varying_register rnd k (mkBlock h1 l c)) as [o1 [h1' l1 c1]].
  destruct (_update_varying_register rnd k (mkBlock h2 l c)) as [o2 [h2' l2 c2]].
  cbn [fst snd _last_values rng_calls] in E1, E2, E3. subst.
  destruct o2 as [[]|]; [apply IH | repeat split].
Qed.

Lemma step_indep (rnd : nat -> Z) (e : Z) (h1 h2 l : gmap Z Z) (c : nat) :
  fst (_step rnd e (mkBlock h1 l c)) = fst (_step rnd e (mkBlock h2 l c)) /\
  _last_values (snd (_step rnd e (mkBlock h1 l c)))
  = _last_values (snd (_step rnd e (mkBlock h2 l c))) /\
  rng_calls (snd (_step rnd e (mkBlock h1 l c)))
  = rng_calls (snd (_step rnd e (mkBlock h2 l c))).
Proof.
  destruct (_expand_register_value _HOUR_METER (Z.quot e 36)) as [d|] eqn:Ed.
  - rewrite (Ticks.step_unfold rnd e (mkBlock h1 l c) d Ed),
      (Ticks.step_unfold rnd e (mkBlock h2 l c) d Ed).
    cbn [set_values values _last_values rng_calls].
    apply loop_indep.
  - unfold _step. rewrite Ed. repeat split.
Qed.

(** The tick raises exactly when the hour-meter value does not fit its
    32-bit register, and then before any write. *)
Lemma hour_meter_fits (e : Z) :
  is_Some (_expand_register_value _HOUR_METER (Z.quot e 36)) <->
  - 2 ^ 31 <= Z.quot e 36 < 2 ^ 31.
Proof.
  rewrite (More.expand_defined _ _ _ Ticks.hour_meter_registered), More.pack_defined.
  split; [intros [_ H]; exact H | intros H; split; [auto | exact H]].
Qed.

Lemma step_ok (rnd : nat -> Z) (e : Z) (s : block) :
  L_of (_last_values s) ->
  (fst (_step rnd e s) = Some tt <-> - 2 ^ 31 <= Z.quot e 36 < 2 ^ 31) /\
  (fst (_step rnd e s) = None -> snd (_step rnd e s) = s).
Proof.
  intros HL. rewrite <- hour_meter_fits.
  destruct (_expand_register_value _HOUR_METER (Z.quot e 36)) as [d|] eqn:Ed.
  - rewrite (Ticks.step_unfold rnd e s d Ed).
    destruct (loop_ok rnd initial_keys
                (set_values (sparse_setValues (values s) _HOUR_METER (VDict d)) s)
                (fun _ => False)) as (s' & E & _ & _); [auto | exact HL | intros ? [] |].
    rewrite E. cbn [fst snd]. split; [split; [intros _; eauto | reflexivity] | discriminate].
  - unfold _step. rewrite Ed. cbn [fst snd].
    split; [split; [discriminate | intros [? H]; discriminate] | reflexivity].
Qed.

(** The two midpoints of a range, [int(sum/2)] and [int(sum/2.0)], agree
    for every configured range. *)
Lemma limits_mid_check :
  forallb (fun '(_, (mn, mx)) => (mn + mx) / 2 =? Z.quot (mn + mx) 2)
          (map_to_list REGISTER_LIMITS) = true.
Proof. vm_compute. reflexivity. Qed.

Lemma limits_mid (a mn mx : Z) :
  REGISTER_LIMITS !! a = Some (mn, mx) -> (mn + mx) / 2 = Z.quot (mn + mx) 2.
Proof.
  intros H. pose proof limits_mid_check as C. rewrite forallb_forall in C.
  assert (Hin : In (a, (mn, mx)) (map_to_list REGISTER_LIMITS))
    by (rewrite <- list_elem_of_In; by apply elem_of_map_to_list).
  specialize (C _ Hin). by apply Z.eqb_eq in C.
Qed.

End More2.

(** ** Initialisation and draw-count facts *)

Module More3.
Import Engine.

Lemma default_fits (vals : gmap Z Z) :
  (forall a v, vals !! a = Some v ->
     exists w, _ALL_REGISTERS !! a = Some w /\ is_Some (_pack_value v w)) ->
  forall a w, _ALL_REGISTERS !! a = Some w ->
    is_Some (_pack_value (default 0 (vals !! a)) w).
Proof.
  intros H a w Hw. destruct (vals !! a) as [v|] eqn:Ev; cbn [default].
  - destruct (H a v Ev) as (w' & Hw' & Hp). assert (w' = w) as -> by congruence. exact Hp.
  - apply More.pack_defined. pose proof (Catalog.width_pos _ _ Hw).
    split; [lia|].
    split; [apply Z.opp_nonpos_nonneg, Z.pow_nonneg | apply Z.pow_pos_nonneg]; lia.
Qed.

Lemma new_block_ok (vals : gmap Z Z) :
  dom vals ⊆ dom _ALL_REGISTERS ->
  (forall a w, _ALL_REGISTERS !! a = Some w ->
     is_Some (_pack_value (default 0 (vals !! a)) w)) ->
  exists b, new_block vals = Some b /\ _last_values b = ∅ /\ rng_calls b = 0%nat /\
    (forall a w, _ALL_REGISTERS !! a = Some w ->
       sparse_getValues (values b) a w = _pack_value (default 0 (vals !! a)) w) /\
    (forall x, is_Some (values b !! x) <->
       exists k w, _ALL_REGISTERS !! k = Some w /\ k <= x < k + w).
Proof.
  intros Hdom Hfit. unfold new_block. rewrite bool_decide_eq_true_2 by exact Hdom.
  rewrite More.expanded_values_fold.
  destruct (More.init_fold_ok vals initial_keys ∅) as (m & E & HG & _ & HS).
  - exact Catalog.initial_keys_NoDup.
  - exact More.initial_keys_is_Some.
  - intros k Hk. destruct (Catalog.initial_key_registered k Hk) as [w Hw].
    apply (More.expand_defined k w _ Hw). exact (Hfit k w Hw).
  - rewrite E. eexists. split; [reflexivity|]. split; [reflexivity|]. split; [reflexivity|].
    split.
    + intros a w Hw. apply HG; [|exact Hw].
      exact (Catalog.ef_visited _ _ (Catalog.entry_facts_of a w Hw)).
    + intros x. cbn [values]. rewrite HS, lookup_empty, More.in_slots_catalog.
      split; [intros [[? H]|H]; [discriminate | exact H] | auto].
Qed.

Lemma initial_dom : dom _INITIAL_REGISTER_VALUES ⊆ dom _ALL_REGISTERS.
Proof.
  destruct (decide (dom _INITIAL_REGISTER_VALUES ⊆ dom _ALL_REGISTERS)) as [H|H]; [exact H|].
  pose proof Catalog.new_block_seeded as E. revert E. unfold new_block.
  rewrite bool_decide_eq_false_2 by exact H. intros E.
  change (@None block = Some seeded) in E. discriminate E.
Qed.

Lemma seeded_keys (x : Z) :
  is_Some (values seeded !! x) <-> exists k w, _ALL_REGISTERS !! k = Some w /\ k <= x < k + w.
Proof.
  destruct (new_block_ok _INITIAL_REGISTER_VALUES initial_dom) as (b & E & _ & _ & _ & HS).
  - intros a w Hw. pose proof (Catalog.entry_facts_of a w Hw) as F.
    destruct (expand_ok a w _ Hw (Catalog.ef_init _ _ F)) as (ws & Hp & _ & _).
    exists ws. exact Hp.
  - rewrite Catalog.new_block_seeded in E.
    assert (Hb : seeded = b) by exact (f_equal (default seeded) E).
    rewrite Hb. apply HS.
Qed.

(** A loop over registers that all have a cache entry draws once per
    register. *)
Lemma loop_calls (rnd : nat -> Z) (keys : list Z) (s : block) :
  NoDup keys -> (forall k, k ∈ keys -> k ∈ initial_keys) -> L_of (_last_values s) ->
  (forall k, k ∈ keys -> is_Some (_last_values s !! k)) ->
  rng_calls (snd (for_each keys (_update_varying_register rnd) s))
  = (rng_calls s + length keys)%nat.
Proof.
  revert s. induction keys as [|k keys IH]; intros s Hnd Hkeys HL Hsome.
  - cbn. lia.
  - apply NoDup_cons in Hnd as [Hk Hnd].
    destruct (update_ok rnd k s) as (s1 & E1 & HL1 & _ & _ & Hc);
      [apply Hkeys, list_elem_of_here | apply HL |]. specialize (HL1 HL).
    pose proof (update_frame rnd k s) as [_ Hl]. rewrite E1 in Hl. cbn [snd] in Hl.
    cbn [for_each]. unfold bind. rewrite E1.
    destruct (Hsome k (list_elem_of_here _ _)) as [v Hv].
    rewrite Hv in Hc. cbn [next_calls] in Hc.
    rewrite IH; auto.
    + rewrite Hc. cbn [length]. lia.
    + intros x Hx. apply Hkeys, list_elem_of_further, Hx.
    + intros x Hx. rewrite Hl by (intros ->; contradiction).
      apply Hsome, list_elem_of_further, Hx.
Qed.

Lemma initial_keys_length : length initial_keys = 459%nat.
Proof. vm_compute. reflexivity. Qed.

End More3.

(** * The claims *)

Module Claims.

(** C7: for every width [w] in {1, 2, 4} and every [v] representable in
    [16 * w] signed bits, [_pack_value v w] succeeds with [w] words, and
    unpacking those words gives [v] back. *)
Theorem C7_round_trip (w v : Z) :
  w = 1 \/ w = 2 \/ w = 4 ->
  - 2 ^ (16 * w - 1) <= v < 2 ^ (16 * w - 1) ->
  exists ws, _pack_value v w = Some ws /\ length ws = Z.to_nat w /\ unpack ws = v.
Proof.
  intros Hw Hv. apply (Codec.unpack_pack_value v w (16 * w)); [|exact Hv].
  destruct Hw as [-> | [-> | ->]]; reflexivity.
Qed.

Lemma C7_round_trip_witness :
  exists ws, _pack_value (-1) 4 = Some ws /\ length ws = Z.to_nat 4 /\ unpack ws = -1.
Proof.
  apply (C7_round_trip 4 (-1)).
  - right. right. reflexivity.
  - split; [apply Z.leb_le | apply Z.ltb_lt]; vm_compute; reflexivity.
Defined.

(** C8: for every function code, address, count and value list, the
    context's [validate], [getValues] and [setValues] pass the address
    unchanged to the store the function code selects. *)
Theorem C8_address_passthrough (ctx : slave_context) (fx address count : Z) (vals : list Z) :
  A40_validate ctx fx address count
  = option_map (fun f => block_validate (store ctx f) address count) (decode fx) /\
  A40_getValues ctx fx address count
  = match decode fx with
    | Some f => block_getValues (store ctx f) address count
    | None => None
    end /\
  A40_setValues ctx fx address vals
  = option_map (fun f => set_store ctx f (block_setValues (store ctx f) address vals))
               (decode fx).
Proof.
  unfold A40_validate, A40_getValues, A40_setValues.
  destruct (decode fx); split; try split; reflexivity.
Qed.

(** C10: any number of ticks from the seeded block leaves the set of
    backed word slots as it was, and so every [validate(address, count)]
    gives the same verdict. *)
Theorem C10_backing_stable (rnd : nat -> Z) (els : list Z) :
  (forall x, is_Some (values (run rnd els seeded) !! x) <-> is_Some (values seeded !! x)) /\
  (forall address count,
     sparse_validate (values (run rnd els seeded)) address count
     = sparse_validate (values seeded) address count).
Proof.
  assert (HD : Backing.Dseed (values (run rnd els seeded)))
    by (apply Backing.run_Dseed; intros x; reflexivity).
  split; [exact HD|]. intros address count. apply Backing.validate_Dseed, HD.
Qed.

(** C5: for a bounded address [a] with limits [(mn, mx)], after any
    number of ticks and for every stream of draws, [a] shows a value in
    [[mn, mx]]. *)
Theorem C5_bounds (rnd : nat -> Z) (els : list Z) (a mn mx : Z) :
  REGISTER_LIMITS !! a = Some (mn, mx) ->
  exists v, read_logical (values (run rnd els seeded)) a = Some v /\ mn <= v <= mx.
Proof.
  intros Hl. destruct (Facts.bounded_registered a _ Hl) as [w Hw].
  destruct (Ticks.run_Inv rnd els seeded Ticks.seeded_Inv) as [_ HP].
  destruct (Ticks.read_Pa _ a (HP a (mk_is_Some _ _ Hw))) as (v & Hr & Hv & _).
  unfold limits_of in Hv. rewrite Hl in Hv. cbn [fst snd] in Hv. eauto.
Qed.

Lemma C5_bounds_witness :
  REGISTER_LIMITS !! 50520 = Some (0, 50000) /\
  exists v, read_logical (values (run (fun _ => 10) [0; 1; 2] seeded)) 50520 = Some v /\
            0 <= v <= 50000.
Proof.
  split; [vm_compute; reflexivity|].
  apply (C5_bounds (fun _ => 10) [0; 1; 2] 50520 0 50000). vm_compute. reflexivity.
Defined.

(** C6: the block is built from [_INITIAL_REGISTER_VALUES], and before
    any tick every register holds the codec's words of the midpoint
    [floor((mn + mx) / 2)] of its limits, or of 0 when it has none. *)
Theorem C6_initial_values (a w : Z) :
  _ALL_REGISTERS !! a = Some w ->
  new_block _INITIAL_REGISTER_VALUES = Some seeded /\
  sparse_getValues (values seeded) a w = _pack_value (Facts.spec_initial a) w /\
  read_logical (values seeded) a = Some (Facts.spec_initial a).
Proof.
  intros Hw. pose proof (Catalog.entry_facts_of a w Hw) as F.
  rewrite <- (Facts.initial_value_spec a w Hw).
  split; [exact Catalog.new_block_seeded|]. split; [exact (Catalog.ef_seed _ _ F)|].
  destruct (Engine.expand_ok a w _ Hw (Catalog.ef_init _ _ F)) as (ws & Hp & Hu & _).
  unfold read_logical. rewrite Hw, (Catalog.ef_seed _ _ F), Hp. cbn [option_map].
  rewrite Hu. reflexivity.
Qed.

Lemma C6_initial_values_witness :
  _ALL_REGISTERS !! 50520 = Some 2 /\
  new_block _INITIAL_REGISTER_VALUES = Some seeded /\
  sparse_getValues (values seeded) 50520 2 = _pack_value (Facts.spec_initial 50520) 2 /\
  read_logical (values seeded) 50520 = Some (Facts.spec_initial 50520).
Proof.
  split; [vm_compute; reflexivity|].
  apply (C6_initial_values 50520 2). vm_compute. reflexivity.
Defined.

(** C2 (as amended): an address of the catalog without limits, other
    than the hour meter, is walked in the default range [[0, 1000]]: it
    holds 0 before any tick, 500 after the first tick of [create()], and a
    value of [[0, 1000]] after any further ticks. *)
Theorem C2_unbounded_walk (rnd : nat -> Z) (els : list Z) (a w : Z) :
  _ALL_REGISTERS !! a = Some w -> REGISTER_LIMITS !! a = None -> a <> _HOUR_METER ->
  read_logical (values seeded) a = Some 0 /\
  read_logical (values (created rnd)) a = Some 500 /\
  exists v, read_logical (values (run rnd els (created rnd))) a = Some v /\ 0 <= v <= 1000.
Proof.
  intros Hw Hl _.
  assert (Elim : limits_of a = (0, 1000)) by (unfold limits_of; rewrite Hl; reflexivity).
  split.
  { rewrite (Facts.seeded_read a w Hw), (Facts.initial_value_spec a w Hw).
    unfold Facts.spec_initial. rewrite Hl. reflexivity. }
  split.
  { rewrite (proj1 (Ticks.created_read rnd a w Hw)), Elim. reflexivity. }
  destruct (Ticks.run_Inv rnd els _ (Ticks.created_Inv rnd)) as [_ HP].
  destruct (Ticks.read_Pa _ a (HP a (mk_is_Some _ _ Hw))) as (v & Hr & Hv & _).
  rewrite Elim in Hv. cbn [fst snd] in Hv. eauto.
Qed.

Lemma C2_unbounded_walk_witness :
  _ALL_REGISTERS !! 0xC650 = Some 2 /\ REGISTER_LIMITS !! 0xC650 = None /\
  0xC650 <> _HOUR_METER /\
  read_logical (values seeded) 0xC650 = Some 0 /\
  read_logical (values (created (fun _ => 10))) 0xC650 = Some 500 /\
  exists v, read_logical (values (run (fun _ => 10) [1; 2] (created (fun _ => 10)))) 0xC650
            = Some v /\ 0 <= v <= 1000.
Proof.
  split; [vm_compute; reflexivity|]. split; [vm_compute; reflexivity|].
  split; [unfold _HOUR_METER; lia|].
  apply (C2_unbounded_walk (fun _ => 10) [1; 2] 0xC650 2);
    [vm_compute; reflexivity | vm_compute; reflexivity | unfold _HOUR_METER; lia].
Defined.

(** C2: the address 0xC650 of the catalog has no limits and holds 0
    before any tick, yet the first tick of [create()] sets it to 500 and
    a second tick with a draw of 10 to 525. *)
Lemma C2_counterexample :
  _ALL_REGISTERS !! 0xC650 = Some 2 /\ REGISTER_LIMITS !! 0xC650 = None /\
  read_logical (values seeded) 0xC650 = Some 0 /\
  read_logical (values (created (fun _ => 10))) 0xC650 = Some 500 /\
  read_logical (values (run (fun _ => 10) [1] (created (fun _ => 10)))) 0xC650 = Some 525.
Proof. repeat split; vm_compute; reflexivity. Qed.

(** C4 (as amended): one update of a bounded address [a] with limits
    [(mn, mx)] succeeds and makes [a] show its new cached value; with no
    cached value it caches the midpoint and draws nothing; otherwise it
    draws one [p] and moves the value up 25 (clamped to [mx]) when
    [p < 25], down 25 (clamped to [mn]) when [25 <= p < 50], and leaves
    it otherwise. *)
Theorem C4_walk_update (rnd : nat -> Z) (a mn mx : Z) (s : block) :
  REGISTER_LIMITS !! a = Some (mn, mx) ->
  (forall v, _last_values s !! a = Some v -> mn <= v <= mx) ->
  exists s', _update_varying_register rnd a s = (Some tt, s') /\
    read_logical (values s') a = _last_values s' !! a /\
    match _last_values s !! a with
    | None => _last_values s' !! a = Some (Z.quot (mn + mx) 2) /\ rng_calls s' = rng_calls s
    | Some v =>
        rng_calls s' = S (rng_calls s) /\
        _last_values s' !! a =
          Some (if rnd (rng_calls s) <? 25 then Z.min mx (v + 25)
                else if rnd (rng_calls s) <? 50 then Z.max mn (v - 25) else v)
    end.
Proof.
  intros Hl HL. destruct (Facts.bounded_registered a _ Hl) as [w Hw].
  pose proof (Catalog.ef_visited _ _ (Catalog.entry_facts_of a w Hw)) as Hk.
  assert (Elim : limits_of a = (mn, mx)) by (unfold limits_of; rewrite Hl; reflexivity).
  destruct (Engine.update_ok rnd a s Hk) as (s' & Hs & _ & HPa & Hlast & Hc);
    [rewrite Elim; exact HL|].
  exists s'. split; [exact Hs|].
  rewrite Elim in Hlast. cbn [fst snd] in Hlast.
  split.
  - destruct (Ticks.read_Pa s' a HPa) as (v & Hr & _ & Hv).
    rewrite Hr, Hlast. f_equal. symmetry. apply Hv, Hlast.
  - rewrite Hlast, Hc. unfold Engine.next_last, Engine.next_calls.
    destruct (_last_values s !! a); split; reflexivity.
Qed.

Lemma C4_walk_update_witness :
  exists s', _update_varying_register (fun _ => 10) 50520 (created (fun _ => 10)) = (Some tt, s') /\
    read_logical (values s') 50520 = _last_values s' !! 50520 /\
    match _last_values (created (fun _ => 10)) !! 50520 with
    | None => _last_values s' !! 50520 = Some (Z.quot (0 + 50000) 2) /\
              rng_calls s' = rng_calls (created (fun _ => 10))
    | Some v =>
        rng_calls s' = S (rng_calls (created (fun _ => 10))) /\
        _last_values s' !! 50520 =
          Some (if (fun _ : nat => 10) (rng_calls (created (fun _ => 10))) <? 25
                then Z.min 50000 (v + 25)
                else if (fun _ : nat => 10) (rng_calls (created (fun _ => 10))) <? 50
                then Z.max 0 (v - 25) else v)
    end.
Proof.
  apply (C4_walk_update (fun _ => 10) 50520 0 50000 (created (fun _ => 10))).
  - vm_compute. reflexivity.
  - intros v Hv. vm_compute in Hv. injection Hv as <-. lia.
Defined.

(** C4: the first tick of [create()] leaves 50520 at its midpoint 25000
    with a draw of 10, not at 25025, and draws nothing. *)
Lemma C4_counterexample :
  REGISTER_LIMITS !! 50520 = Some (0, 50000) /\ _last_values seeded !! 50520 = None /\
  read_logical (values (created (fun _ => 10))) 50520 = Some 25000 /\
  rng_calls (created (fun _ => 10)) = 0%nat.
Proof. repeat split; vm_compute; reflexivity. Qed.

(** C1: the hour meter is walked like any other register.  After the
    first tick of [create()] (elapsed 0, so [floor(0/36) = 0]) it shows
    500 whatever the draws; with draws of 40 the tick at elapsed 36
    ([floor(36/36) = 1]) lowers it to 475. *)
Theorem C1_hour_meter_walked (rnd : nat -> Z) :
  Z.quot 0 36 = 0 /\
  read_logical (values (created rnd)) _HOUR_METER = Some 500 /\
  Z.quot 36 36 = 1 /\
  read_logical (values (snd (_step (fun _ => 40) 36 (created (fun _ => 40))))) _HOUR_METER
  = Some 475.
Proof.
  split; [reflexivity|]. split.
  - rewrite (proj1 (Ticks.created_read rnd _HOUR_METER 2 Ticks.hour_meter_registered)).
    replace (limits_of _HOUR_METER) with (0, 1000) by (vm_compute; reflexivity).
    reflexivity.
  - split; [reflexivity|]. vm_compute. reflexivity.
Qed.

(** C3: register 50520 has limits [(0, 50000)] and shows 25000 both
    before and after the first tick of [create()]; one further tick at
    any elapsed time of the hour meter's range, with the draw forced to
    10, 40 or 80, makes it show 25025, 24975 or 25000. *)
Theorem C3_scenario_50520 (e : Z) :
  0 <= e < 36 * 2 ^ 31 ->
  REGISTER_LIMITS !! 50520 = Some (0, 50000) /\
  read_logical (values seeded) 50520 = Some 25000 /\
  (forall rnd, read_logical (values (created rnd)) 50520 = Some 25000) /\
  read_logical (values (snd (_step (fun _ => 10) e (created (fun _ => 10))))) 50520
  = Some 25025 /\
  read_logical (values (snd (_step (fun _ => 40) e (created (fun _ => 40))))) 50520
  = Some 24975 /\
  read_logical (values (snd (_step (fun _ => 80) e (created (fun _ => 80))))) 50520
  = Some 25000.
Proof.
  intros He.
  assert (Hw : _ALL_REGISTERS !! 50520 = Some 2) by (vm_compute; reflexivity).
  split; [vm_compute; reflexivity|]. split; [vm_compute; reflexivity|]. split.
  { intros rnd. rewrite (proj1 (Ticks.created_read rnd 50520 2 Hw)).
    replace (limits_of 50520) with (0, 50000) by (vm_compute; reflexivity).
    reflexivity. }
  rewrite !Facts.tick_50520 by exact He.
  split; [|split]; reflexivity.
Qed.

Lemma C3_scenario_50520_witness :
  REGISTER_LIMITS !! 50520 = Some (0, 50000) /\
  read_logical (values seeded) 50520 = Some 25000 /\
  (forall rnd, read_logical (values (created rnd)) 50520 = Some 25000) /\
  read_logical (values (snd (_step (fun _ => 10) 1 (created (fun _ => 10))))) 50520
  = Some 25025 /\
  read_logical (values (snd (_step (fun _ => 40) 1 (created (fun _ => 40))))) 50520
  = Some 24975 /\
  read_logical (values (snd (_step (fun _ => 80) 1 (created (fun _ => 80))))) 50520
  = Some 25000.
Proof. apply (C3_scenario_50520 1). split; [lia | apply Z.ltb_lt; vm_compute; reflexivity]. Defined.

(** C9 (as amended): a write of the holding registers checks neither the
    count nor the width of the registers: every list of values is
    accepted and written word by word at [address + i], every other word
    keeps its value, and the cache and the draw counter are untouched. *)
Theorem C9_write_unchecked (ctx : slave_context) (fx address : Z) (vals : list Z) (b : block) :
  decode fx = Some Fh -> ctx_hr ctx = A40Block b ->
  exists b', A40_setValues ctx fx address vals = Some (set_store ctx Fh (A40Block b')) /\
    _last_values b' = _last_values b /\ rng_calls b' = rng_calls b /\
    forall x, values b' !! x =
      if (address <=? x) && (x <? address + Z.of_nat (length vals))
      then vals !! Z.to_nat (x - address) else values b !! x.
Proof.
  intros Hf Hb. exists (set_values (sparse_setValues (values b) address (VList vals)) b).
  split; [unfold A40_setValues; rewrite Hf; cbn [store]; rewrite Hb; reflexivity|].
  split; [reflexivity|]. split; [reflexivity|].
  intros x. cbn [values set_values sparse_setValues].
  rewrite Facts.list_write_lookup, Nat2Z.inj_0, !Z.add_0_r, Z.sub_0_r. reflexivity.
Qed.

Lemma C9_write_unchecked_witness :
  exists b', A40_setValues (create (fun _ => 0)) 16 0xC550 [7]
             = Some (set_store (create (fun _ => 0)) Fh (A40Block b')) /\
    _last_values b' = _last_values (created (fun _ => 0)) /\
    rng_calls b' = rng_calls (created (fun _ => 0)) /\
    forall x, values b' !! x =
      if (0xC550 <=? x) && (x <? 0xC550 + Z.of_nat (length [7]))
      then [7] !! Z.to_nat (x - 0xC550) else values (created (fun _ => 0)) !! x.
Proof. apply (C9_write_unchecked (create (fun _ => 0)) 16 0xC550 [7]); reflexivity. Defined.

(** C9: a one-word write at the two-word hour meter is accepted and
    changes its high word only: [[0; 500]] becomes [[7; 500]]. *)
Lemma C9_counterexample :
  _ALL_REGISTERS !! 0xC550 = Some 2 /\
  A40_getValues (create (fun _ => 0)) 3 0xC550 2 = Some [0; 500] /\
  option_map (fun c => A40_getValues c 3 0xC550 2)
             (A40_setValues (create (fun _ => 0)) 16 0xC550 [7]) = Some (Some [7; 500]).
Proof. repeat split; vm_compute; reflexivity. Qed.

End Claims.

(** * Further properties of the code *)

Module Extras.
Import Engine.

(** Two values packed to the same words at the same width are equal. *)
Theorem pack_value_injective (v v' w : Z) (ws : list Z) :
  _pack_value v w = Some ws -> _pack_value v' w = Some ws -> v = v'.
Proof. exact (More.pack_inj v v' w ws). Qed.

Lemma pack_value_injective_witness : -2 = -2.
Proof.
  apply (pack_value_injective (-2) (-2) 4 [65535; 65535; 65535; 65534]);
    vm_compute; reflexivity.
Defined.

(** Distinct registers of the catalog have widths 1 or 2 and occupy
    disjoint word slots. *)
Theorem catalog_disjoint (a k wa wk : Z) :
  _ALL_REGISTERS !! a = Some wa -> _ALL_REGISTERS !! k = Some wk -> a <> k ->
  (wa = 1 \/ wa = 2) /\ forall x, a <= x < a + wa -> ~ (k <= x < k + wk).
Proof.
  intros Ha Hk Hne. pose proof (Catalog.width_pos _ _ Ha) as Hw. split; [lia|].
  intros x Hx Hx'.
  apply (Catalog.slots_disjoint a k wa wk x Ha Hk Hne);
    apply More.elem_of_zrange_any; assumption.
Qed.

Lemma catalog_disjoint_witness :
  (2 = 1 \/ 2 = 2) /\ forall x, 0xC550 <= x < 0xC550 + 2 -> ~ (0xC552 <= x < 0xC552 + 2).
Proof. apply (catalog_disjoint 0xC550 0xC552 2 2); [vm_compute; reflexivity.. | lia]. Defined.

(** Writing the expansion of [v] at register [a] makes [a] hold the
    words of [v], and leaves every word outside [a]'s slots, hence every
    other register, as it was. *)
Theorem register_write_read (h : gmap Z Z) (a w v : Z) (d : list (Z * Z)) :
  _ALL_REGISTERS !! a = Some w -> _expand_register_value a v = Some d ->
  sparse_getValues (sparse_setValues h a (VDict d)) a w = _pack_value v w /\
  (forall x, x < a \/ a + w <= x -> sparse_setValues h a (VDict d) !! x = h !! x) /\
  (forall k wk, _ALL_REGISTERS !! k = Some wk -> k <> a ->
     sparse_getValues (sparse_setValues h a (VDict d)) k wk = sparse_getValues h k wk).
Proof.
  intros Hw He. destruct (Store.expand_spec _ _ _ He) as (w' & ws & Hw' & Hp & Hl & ->).
  rewrite Hw in Hw'. injection Hw' as <-. rewrite Store.sparse_setValues_dict.
  pose proof (Catalog.width_pos _ _ Hw) as Hwp.
  assert (Hfst : map fst (zip (zrange a w) ws) = zrange a w)
    by (apply Store.map_fst_zip; by rewrite Store.zrange_length).
  split; [rewrite Hp; exact (Store.getValues_dict_write h a w ws Hl)|]. split.
  - intros x Hx. apply Store.dict_write_other. rewrite Hfst, More.elem_of_zrange_any. lia.
  - intros k wk Hk Hne. apply Store.getValues_ext. intros x Hx.
    apply Store.dict_write_other. rewrite Hfst.
    exact (Catalog.slots_disjoint k a wk w x Hk Hw Hne Hx).
Qed.

Lemma register_write_read_witness :
  sparse_getValues (sparse_setValues (values seeded) 0xC550 (VDict [(0xC550, 0); (0xC551, 7)]))
    0xC550 2 = _pack_value 7 2 /\
  (forall x, x < 0xC550 \/ 0xC550 + 2 <= x ->
     sparse_setValues (values seeded) 0xC550 (VDict [(0xC550, 0); (0xC551, 7)]) !! x
     = values seeded !! x) /\
  (forall k wk, _ALL_REGISTERS !! k = Some wk -> k <> 0xC550 ->
     sparse_getValues (sparse_setValues (values seeded) 0xC550
                         (VDict [(0xC550, 0); (0xC551, 7)])) k wk
     = sparse_getValues (values seeded) k wk).
Proof. apply (register_write_read (values seeded) 0xC550 2 7); vm_compute; reflexivity. Defined.

(** The store [__init__] builds holds a word exactly at the slots of the
    catalog's registers, so [validate(address, count)] accepts exactly a
    nonzero count of such slots. *)
Theorem seeded_backing :
  (forall x, is_Some (values seeded !! x) <->
     exists k w, _ALL_REGISTERS !! k = Some w /\ k <= x < k + w) /\
  (forall address count, sparse_validate (values seeded) address count = true <->
     count <> 0 /\ forall x, address <= x < address + count ->
       exists k w, _ALL_REGISTERS !! k = Some w /\ k <= x < k + w).
Proof.
  split; [exact More3.seeded_keys|]. intros address count. unfold sparse_validate.
  destruct (Z.eqb_spec count 0) as [-> | Hc].
  - split; [discriminate | intros [H _]; congruence].
  - rewrite forallb_forall. split.
    + intros H. split; [exact Hc|]. intros x Hx. apply More3.seeded_keys.
      assert (Hin : In x (zrange address count))
        by (apply list_elem_of_In, More.elem_of_zrange_any; exact Hx).
      specialize (H x Hin). rewrite bool_decide_eq_true in H. exact H.
    + intros [_ H] x Hx. rewrite bool_decide_eq_true. apply More3.seeded_keys, H.
      apply More.elem_of_zrange_any, list_elem_of_In. exact Hx.
Qed.

(** [__init__(values)] succeeds when every key of [values] is a register
    whose value fits its width: the cache is empty, every register holds
    the words of [values.get(addr, 0)], and the words held are exactly the
    slots of the catalog. *)
Theorem new_block_init (vals : gmap Z Z) :
  (forall a v, vals !! a = Some v ->
     exists w, _ALL_REGISTERS !! a = Some w /\ is_Some (_pack_value v w)) ->
  exists b, new_block vals = Some b /\ _last_values b = ∅ /\ rng_calls b = 0%nat /\
    (forall a w, _ALL_REGISTERS !! a = Some w ->
       sparse_getValues (values b) a w = _pack_value (default 0 (vals !! a)) w) /\
    (forall x, is_Some (values b !! x) <->
       exists k w, _ALL_REGISTERS !! k = Some w /\ k <= x < k + w).
Proof.
  intros H. apply More3.new_block_ok; [|exact (More3.default_fits vals H)].
  apply More.dom_sub. intros a [v Hv]. destruct (H a v Hv) as (w & Hw & _). eauto.
Qed.

Lemma new_block_init_witness :
  exists b, new_block ({[0xC550 := 1234]} : gmap Z Z) = Some b /\ _last_values b = ∅ /\
    rng_calls b = 0%nat /\
    (forall a w, _ALL_REGISTERS !! a = Some w ->
       sparse_getValues (values b) a w
       = _pack_value (default 0 (({[0xC550 := 1234]} : gmap Z Z) !! a)) w) /\
    (forall x, is_Some (values b !! x) <->
       exists k w, _ALL_REGISTERS !! k = Some w /\ k <= x < k + w).
Proof.
  apply (new_block_init {[0xC550 := 1234]}).
  intros a v Hv. apply lookup_singleton_Some in Hv as [<- <-].
  exists 2. split; [vm_compute; reflexivity | eexists; vm_compute; reflexivity].
Defined.

(** [__init__(values)] raises when a key of [values] is no register or
    its value does not fit the register's width. *)
Theorem new_block_rejects (vals : gmap Z Z) (a v : Z) :
  vals !! a = Some v ->
  _ALL_REGISTERS !! a = None \/
  (exists w, _ALL_REGISTERS !! a = Some w /\ _pack_value v w = None) ->
  new_block vals = None.
Proof.
  intros Hv [Hn | (w & Hw & Hp)].
  - unfold new_block. rewrite bool_decide_eq_false_2; [reflexivity|].
    intros Hsub. destruct (proj2 (More.dom_sub vals) Hsub a (mk_is_Some _ _ Hv)) as [? H].
    congruence.
  - assert (Hx : _expand_register_value a (default 0 (vals !! a)) = None).
    { rewrite Hv. destruct (_expand_register_value a (default 0 (Some v))) as [d|] eqn:E;
        [exfalso|reflexivity].
      destruct (proj1 (More.expand_defined a w v Hw) (mk_is_Some _ _ E)) as [ws H].
      congruence. }
    assert (E : expanded_values vals = None).
    { rewrite More.expanded_values_fold.
      exact (More.init_fold_fail vals initial_keys a _
               (Catalog.ef_visited _ _ (Catalog.entry_facts_of a w Hw)) Hx). }
    unfold new_block. rewrite E. destruct (bool_decide _); reflexivity.
Qed.

Lemma new_block_rejects_witness :
  ({[1 := 0]} : gmap Z Z) !! 1 = Some 0 /\ new_block ({[1 := 0]} : gmap Z Z) = None.
Proof.
  split; [vm_compute; reflexivity|].
  apply (new_block_rejects {[1 := 0]} 1 0); [vm_compute; reflexivity | left; vm_compute; reflexivity].
Defined.

(** After any ticks from the seeded block, a tick raises exactly when
    [int(elapsed/36)] does not fit the 32-bit hour meter, and a tick that
    raises leaves the block as it was. *)
Theorem step_raises_only_on_overflow (rnd : nat -> Z) (els : list Z) (e : Z) :
  (fst (_step rnd e (run rnd els seeded)) = Some tt <-> - 2 ^ 31 <= Z.quot e 36 < 2 ^ 31) /\
  (fst (_step rnd e (run rnd els seeded)) = None ->
   snd (_step rnd e (run rnd els seeded)) = run rnd els seeded).
Proof.
  destruct (Ticks.run_Inv rnd els seeded Ticks.seeded_Inv) as [HL _].
  exact (More2.step_ok rnd e _ HL).
Qed.

(** Ticks only ever store unsigned 16-bit words. *)
Theorem store_words16 (rnd : nat -> Z) (els : list Z) (x v : Z) :
  values (run rnd els seeded) !! x = Some v -> 0 <= v < 65536.
Proof.
  apply (More2.run_pres More2.Word16 More2.word16_write rnd els seeded More2.seeded_word16).
Qed.

Lemma store_words16_witness :
  values (run (fun _ => 0) [0] seeded) !! 0xC551 = Some 500 /\ 0 <= 500 < 65536.
Proof.
  split; [vm_compute; reflexivity|].
  apply (store_words16 (fun _ => 0) [0] 0xC551 500). vm_compute. reflexivity.
Defined.

(** After [create()] and any further ticks, every register holds the
    words of its cached last value, which lies in its walk range. *)
Theorem cache_coherent (rnd : nat -> Z) (els : list Z) (a w : Z) :
  _ALL_REGISTERS !! a = Some w ->
  exists v ws, _last_values (run rnd els (created rnd)) !! a = Some v /\
    fst (limits_of a) <= v <= snd (limits_of a) /\ _pack_value v w = Some ws /\
    sparse_getValues (values (run rnd els (created rnd))) a w = Some ws.
Proof.
  intros Hw.
  destruct (More2.run_Full rnd els _ (Ticks.created_Inv rnd) (More2.created_Full rnd))
    as [[_ HP] HF].
  destruct (HP a (mk_is_Some _ _ Hw)) as (w' & v & ws & Hw' & Hv & Hp & Hg & Hl).
  rewrite Hw in Hw'. injection Hw' as <-.
  destruct (HF a w Hw) as [u Hu]. pose proof (Hl u Hu) as ->.
  exists v, ws. auto.
Qed.

Lemma cache_coherent_witness :
  exists v ws, _last_values (run (fun _ => 10) [1] (created (fun _ => 10))) !! 50520 = Some v /\
    fst (limits_of 50520) <= v <= snd (limits_of 50520) /\ _pack_value v 2 = Some ws /\
    sparse_getValues (values (run (fun _ => 10) [1] (created (fun _ => 10)))) 50520 2 = Some ws.
Proof. apply (cache_coherent (fun _ => 10) [1] 50520 2). vm_compute. reflexivity. Defined.

(** After [create()] and any ticks, one more tick that does not raise
    moves each register's value by at most 25, within its walk range. *)
Theorem tick_slew (rnd : nat -> Z) (els : list Z) (e a w : Z) :
  - 2 ^ 31 <= Z.quot e 36 < 2 ^ 31 -> _ALL_REGISTERS !! a = Some w ->
  exists v v' ws ws',
    sparse_getValues (values (run rnd els (created rnd))) a w = Some ws /\
    _pack_value v w = Some ws /\
    sparse_getValues (values (snd (_step rnd e (run rnd els (created rnd))))) a w = Some ws' /\
    _pack_value v' w = Some ws' /\
    Z.abs (v' - v) <= 25 /\ fst (limits_of a) <= v' <= snd (limits_of a).
Proof.
  intros He Hw.
  destruct (More2.run_Full rnd els _ (Ticks.created_Inv rnd) (More2.created_Full rnd))
    as [[HL HP] HF].
  set (s := run rnd els (created rnd)) in *.
  destruct (HP a (mk_is_Some _ _ Hw)) as (w' & v & ws & Hw' & Hv & Hp & Hg & Hl).
  rewrite Hw in Hw'. injection Hw' as <-.
  destruct (HF a w Hw) as [u Hu]. pose proof (Hl u Hu) as ->.
  destruct (More2.step_after rnd e s a w HL (proj2 (More2.hour_meter_fits e) He) Hw)
    as (c & v' & ws' & Hv' & _ & Hr & Hp' & Hg').
  exists v, v', ws, ws'. split; [exact Hg|]. split; [exact Hp|]. split; [exact Hg'|].
  split; [exact Hp'|]. split; [|exact Hr].
  rewrite Hu in Hv'. subst v'. unfold next_last.
  destruct (rnd c <? 25); [|destruct (rnd c <? 50)]; lia.
Qed.

Lemma tick_slew_witness :
  exists v v' ws ws',
    sparse_getValues (values (run (fun _ => 10) [1] (created (fun _ => 10)))) 50520 2 = Some ws /\
    _pack_value v 2 = Some ws /\
    sparse_getValues (values (snd (_step (fun _ => 10) 2
                                     (run (fun _ => 10) [1] (created (fun _ => 10)))))) 50520 2
      = Some ws' /\
    _pack_value v' 2 = Some ws' /\
    Z.abs (v' - v) <= 25 /\ fst (limits_of 50520) <= v' <= snd (limits_of 50520).
Proof.
  apply (tick_slew (fun _ => 10) [1] 2 50520 2);
    [split; [apply Z.leb_le | apply Z.ltb_lt]; vm_compute; reflexivity
    | vm_compute; reflexivity].
Defined.

Lemma set_values_last (h : gmap Z Z) (s : block) : _last_values (set_values h s) = _last_values s.
Proof. reflexivity. Qed.

Lemma set_values_calls (h : gmap Z Z) (s : block) : rng_calls (set_values h s) = rng_calls s.
Proof. reflexivity. Qed.

(** A tick's outcome does not depend on the words in the store: two
    blocks with the same cache and draw position (for example, one and the
    same block after a client wrote to it) end the tick with the same cache,
    draw position and register words, so client writes to registers are
    overwritten. *)
Theorem tick_ignores_store (rnd : nat -> Z) (els : list Z) (e : Z) (s2 : block) :
  _last_values s2 = _last_values (run rnd els seeded) ->
  rng_calls s2 = rng_calls (run rnd els seeded) ->
  - 2 ^ 31 <= Z.quot e 36 < 2 ^ 31 ->
  _last_values (snd (_step rnd e s2)) = _last_values (snd (_step rnd e (run rnd els seeded))) /\
  rng_calls (snd (_step rnd e s2)) = rng_calls (snd (_step rnd e (run rnd els seeded))) /\
  (forall a w, _ALL_REGISTERS !! a = Some w ->
     sparse_getValues (values (snd (_step rnd e s2))) a w
     = sparse_getValues (values (snd (_step rnd e (run rnd els seeded)))) a w).
Proof.
  intros E1 E2 He.
  destruct (Ticks.run_Inv rnd els seeded Ticks.seeded_Inv) as [HL _].
  revert E1 E2 HL. generalize (run rnd els seeded) as s1. intros s1 E1 E2 HL.
  destruct s1 as [h1 l1 c1], s2 as [h2 l2 c2]. cbn [_last_values rng_calls] in *. subst.
  destruct (More2.step_indep rnd e h2 h1 l1 c1) as (_ & El & Ec).
  split; [exact El|]. split; [exact Ec|]. intros a w Hw.
  pose proof (proj2 (More2.hour_meter_fits e) He) as Hh.
  destruct (More2.step_after rnd e (mkBlock h1 l1 c1) a w HL Hh Hw)
    as (c & v & ws & _ & Hl & _ & Hp & Hg).
  destruct (More2.step_after rnd e (mkBlock h2 l1 c1) a w HL Hh Hw)
    as (c' & v' & ws' & _ & Hl' & _ & Hp' & Hg').
  rewrite El, Hl in Hl'. injection Hl' as <-. rewrite Hp in Hp'. injection Hp' as <-.
  rewrite Hg, Hg'. reflexivity.
Qed.

Lemma tick_ignores_store_witness :
  _last_values (snd (_step (fun _ => 10) 1
     (set_values (sparse_setValues (values (run (fun _ => 10) [0] seeded)) 0xC550 (VList [7; 7]))
                 (run (fun _ => 10) [0] seeded))))
  = _last_values (snd (_step (fun _ => 10) 1 (run (fun _ => 10) [0] seeded))) /\
  rng_calls (snd (_step (fun _ => 10) 1
     (set_values (sparse_setValues (values (run (fun _ => 10) [0] seeded)) 0xC550 (VList [7; 7]))
                 (run (fun _ => 10) [0] seeded))))
  = rng_calls (snd (_step (fun _ => 10) 1 (run (fun _ => 10) [0] seeded))) /\
  (forall a w, _ALL_REGISTERS !! a = Some w ->
     sparse_getValues (values (snd (_step (fun _ => 10) 1
       (set_values (sparse_setValues (values (run (fun _ => 10) [0] seeded)) 0xC550 (VList [7; 7]))
                   (run (fun _ => 10) [0] seeded))))) a w
     = sparse_getValues (values (snd (_step (fun _ => 10) 1 (run (fun _ => 10) [0] seeded)))) a w).
Proof.
  apply (tick_ignores_store (fun _ => 10) [0] 1);
    [exact (set_values_last _ _) | exact (set_values_calls _ _)
    | split; [apply Z.leb_le | apply Z.ltb_lt]; vm_compute; reflexivity].
Defined.

(** [create()]'s first tick leaves every register with configured limits
    at its seeded words: the midpoints [int(sum/2)] of the seeding and
    [int(sum/2.0)] of the walk agree on every configured range. *)
Theorem first_tick_keeps_bounded (rnd : nat -> Z) (a mn mx w : Z) :
  REGISTER_LIMITS !! a = Some (mn, mx) -> _ALL_REGISTERS !! a = Some w ->
  sparse_getValues (values (created rnd)) a w = sparse_getValues (values seeded) a w.
Proof.
  intros Hl Hw. pose proof (Catalog.entry_facts_of a w Hw) as F.
  assert (Elim : limits_of a = (mn, mx)) by (unfold limits_of; rewrite Hl; reflexivity).
  assert (Es : Facts.spec_initial a = Z.quot (mn + mx) 2)
    by (unfold Facts.spec_initial; rewrite Hl; exact (More2.limits_mid a mn mx Hl)).
  rewrite (Catalog.ef_seed _ _ F), (Facts.initial_value_spec a w Hw), Es.
  destruct (Ticks.created_Inv rnd) as [_ HP].
  destruct (HP a (mk_is_Some _ _ Hw)) as (w' & v & ws & Hw' & _ & Hp & Hg & Hv).
  rewrite Hw in Hw'. injection Hw' as <-.
  pose proof (Hv _ (proj2 (Ticks.created_read rnd a w Hw))) as Ev.
  rewrite Elim in Ev. cbn [fst snd] in Ev. rewrite Ev, Hp. exact Hg.
Qed.

Lemma first_tick_keeps_bounded_witness :
  sparse_getValues (values (created (fun _ => 0))) 50520 2
  = sparse_getValues (values seeded) 50520 2.
Proof. apply (first_tick_keeps_bounded (fun _ => 0) 50520 0 50000 2); vm_compute; reflexivity. Defined.

(** After [create()] and any ticks, a tick that does not raise draws
    exactly one random number per register of the catalog, 459 in all. *)
Theorem tick_draws (rnd : nat -> Z) (els : list Z) (e : Z) :
  - 2 ^ 31 <= Z.quot e 36 < 2 ^ 31 ->
  rng_calls (snd (_step rnd e (run rnd els (created rnd))))
  = (rng_calls (run rnd els (created rnd)) + 459)%nat.
Proof.
  intros He.
  destruct (More2.run_Full rnd els _ (Ticks.created_Inv rnd) (More2.created_Full rnd))
    as [[HL _] HF].
  set (s := run rnd els (created rnd)) in *.
  destruct (proj2 (More2.hour_meter_fits e) He) as [d Ed].
  rewrite (Ticks.step_unfold rnd e s d Ed), More3.loop_calls.
  - cbn [rng_calls set_values]. rewrite More3.initial_keys_length. reflexivity.
  - exact Catalog.initial_keys_NoDup.
  - auto.
  - exact HL.
  - intros k Hk. destruct (Catalog.initial_key_registered k Hk) as [w Hw]. exact (HF k w Hw).
Qed.

Lemma tick_draws_witness :
  rng_calls (snd (_step (fun _ => 10%Z) 1 (run (fun _ => 10%Z) [] (created (fun _ => 10%Z)))))
  = (rng_calls (run (fun _ => 10%Z) [] (created (fun _ => 10%Z))) + 459)%nat.
Proof.
  apply (tick_draws (fun _ => 10%Z) [] 1).
  split; [apply Z.leb_le | apply Z.ltb_lt]; vm_compute; reflexivity.
Defined.

(** A client write to the holding registers through the context can be
    read back at once at the same address, and leaves every read of a
    disjoint range and the other three stores unchanged. *)
Theorem context_write_read (ctx : slave_context) (fx fx' address : Z) (vals : list Z)
  (b : block) :
  decode fx = Some Fh -> decode fx' = Some Fh -> ctx_hr ctx = A40Block b ->
  exists ctx', A40_setValues ctx fx address vals = Some ctx' /\
    A40_getValues ctx' fx' address (Z.of_nat (length vals)) = Some vals /\
    (forall a c, a + c <= address \/ address + Z.of_nat (length vals) <= a ->
       A40_getValues ctx' fx' a c = A40_getValues ctx fx' a c) /\
    ctx_di ctx' = ctx_di ctx /\ ctx_co ctx' = ctx_co ctx /\ ctx_ir ctx' = ctx_ir ctx.
Proof.
  intros Hf Hf' Hb.
  exists (set_store ctx Fh (A40Block (set_values (sparse_setValues (values b) address
                                                   (VList vals)) b))).
  split; [unfold A40_setValues; rewrite Hf; cbn [store]; rewrite Hb; reflexivity|].
  unfold A40_getValues. rewrite Hf'. cbn [store set_store ctx_hr ctx_di ctx_co ctx_ir].
  rewrite Hb. cbn [block_getValues values set_values sparse_setValues].
  split; [|split; [|auto]].
  - unfold sparse_getValues. apply mapM_Some_2, Forall2_same_length_lookup_2.
    { rewrite Store.zrange_length. lia. }
    intros i x y Hx Hy. apply More.zrange_lookup in Hx as [-> Hi].
    rewrite Facts.list_write_lookup.
    replace ((address + Z.of_nat 0 <=? address + Z.of_nat i) &&
             (address + Z.of_nat i <? address + Z.of_nat 0 + Z.of_nat (length vals)))
      with true by (symmetry; apply andb_true_iff; split; [apply Z.leb_le | apply Z.ltb_lt]; lia).
    replace (Z.to_nat (address + Z.of_nat i - address - Z.of_nat 0)) with i by lia.
    exact Hy.
  - intros a c Hac. apply Store.getValues_ext. intros x Hx.
    apply More.elem_of_zrange_any in Hx.
    rewrite Facts.list_write_lookup.
    replace ((address + Z.of_nat 0 <=? x) &&
             (x <? address + Z.of_nat 0 + Z.of_nat (length vals))) with false
      by (symmetry; apply andb_false_iff;
          destruct (Z.lt_ge_cases x address); [left; apply Z.leb_gt | right; apply Z.ltb_ge];
          lia).
    reflexivity.
Qed.

Lemma context_write_read_witness :
  exists ctx', A40_setValues (create (fun _ => 0)) 16 0xC550 [7; 8] = Some ctx' /\
    A40_getValues ctx' 3 0xC550 (Z.of_nat (length [7; 8])) = Some [7; 8] /\
    (forall a c, a + c <= 0xC550 \/ 0xC550 + Z.of_nat (length [7; 8]) <= a ->
       A40_getValues ctx' 3 a c = A40_getValues (create (fun _ => 0)) 3 a c) /\
    ctx_di ctx' = ctx_di (create (fun _ => 0)) /\ ctx_co ctx' = ctx_co (create (fun _ => 0)) /\
    ctx_ir ctx' = ctx_ir (create (fun _ => 0)).
Proof.
  apply (context_write_read (create (fun _ => 0)) 16 3 0xC550 [7; 8] (created (fun _ => 0)));
    reflexivity.
Defined.

End Extras.
